(** * Facility-location LP instance: parser and formulation (lpinstance.py)

    A shallow embedding of [getLPInstance], [LPSolver.__init__] and
    [LPSolver.solve] of [src/lpinstance.py], with the pieces of the Python
    runtime, of numpy and of the docplex modelling layer they call.

    Conventions.
    - Text is a [string]; a character is a code point below 256.
    - A Python [int] is a [Z].  The readers [int(...)] and [float(...)] are
      builtins of the interpreter: the parser is written over two arbitrary
      partial readers [py_int] and [py_float] ([None] is [ValueError]), and
      over an arbitrary carrier for floats.  [Numerals] gives concrete readers
      for plain decimal numerals, used to run the parser on concrete files.
    - An exception is a value of [exn]; code that can raise lives in the
      error monad [exn + A].  The docplex model object is mutated in place,
      so [solve] threads it explicitly and it survives a raise.
    - The formulation computes with exact rationals ([Q]): every finite
      double is one.  Rounding, infinities and NaN are outside the model.
    - Machine limits are outside the model too: integers, array shapes and
      memory are unbounded. *)

From Stdlib Require Import Ascii ZArith QArith Qround Lqa.
From stdpp Require Import base tactics option list strings pretty.

Set Default Proof Using "Type".
Local Open Scope string_scope.

(** ** Python runtime *)

Module Py.

(** The exception classes that the modelled code can meet, each with the
    text [str(e)] gives. *)
Inductive exn : Type :=
| ValueError (msg : string)
| IndexError (msg : string)
| OSError (msg : string)
| AttributeError (msg : string)
| DOcplexException (msg : string).

Definition str_exn (e : exn) : string :=
  match e with
  | ValueError m | IndexError m | OSError m
  | AttributeError m | DOcplexException m => m
  end.

Definition result (A : Type) : Type := exn + A.

Definition raise {A} (e : exn) : result A := inl e.
Definition ret {A} (a : A) : result A := inr a.
Definition bind {A B} (m : result A) (k : A → result B) : result B :=
  match m with
  | inl e => inl e
  | inr a => k a
  end.

(** [[g(i) for i in l]]: elements are evaluated left to right and the first
    raise ends the comprehension. *)
Fixpoint mapM {A B} (g : A → result B) (l : list A) : result (list B) :=
  match l with
  | [] => ret []
  | a :: l' =>
      bind (g a) (λ b, bind (mapM g l') (λ bs, ret (b :: bs)))
  end.

(** [for i in l: s = body(s, i)] with a body that can raise. *)
Fixpoint foldM {S X} (body : S → X → result S) (l : list X) (s : S)
  : result S :=
  match l with
  | [] => ret s
  | i :: l' => bind (body s i) (foldM body l')
  end.

(** [range(n)] for a Python int [n]: empty when [n <= 0]. *)
Definition range (n : Z) : list nat := seq 0 (Z.to_nat n).

(** [l[i]] on a Python list. *)
Definition list_getitem {A} (l : list A) (i : nat) : result A :=
  match l !! i with
  | Some a => ret a
  | None => raise (IndexError "list index out of range")
  end.

(** [a, b = l]. *)
Definition unpack2 {A} (l : list A) : result (A * A) :=
  match l with
  | [a; b] => ret (a, b)
  | [] => raise (ValueError "not enough values to unpack (expected 2, got 0)")
  | [_] => raise (ValueError "not enough values to unpack (expected 2, got 1)")
  | _ => raise (ValueError "too many values to unpack (expected 2)")
  end.

(** A builtin reader [r] applied to one token: its value, or the
    exception that describes the token. *)
Definition read_token {A} (r : string → option A) (describe : string → exn)
    (tok : string) : result A :=
  match r tok with
  | Some v => ret v
  | None => raise (describe tok)
  end.

(** [repr(s)] for a [str] of code points below 256.  The text is put
    between single quotes, or between double quotes when it holds a
    single quote and no double quote; the quote in use and the backslash
    are escaped, as are tab, line feed and carriage return, and every
    other character that is not printable is written in hexadecimal. *)
Definition backslash : ascii := ascii_of_nat 92.
Definition double_quote : ascii := ascii_of_nat 34.
Definition single_quote : ascii := ascii_of_nat 39.

Definition isprintable (ch : ascii) : bool :=
  let n := nat_of_ascii ch in
  (((32 <=? n) && (n <? 127)) || ((161 <=? n) && negb (n =? 173)))%nat.

Definition hex_digit (n : nat) : ascii :=
  ascii_of_nat (if (n <? 10)%nat then 48 + n else 87 + n).

Definition escape (quote ch : ascii) : string :=
  let n := nat_of_ascii ch in
  if Ascii.eqb ch quote || Ascii.eqb ch backslash
  then String backslash (String ch "")
  else if (n =? 9)%nat then String backslash "t"
  else if (n =? 10)%nat then String backslash "n"
  else if (n =? 13)%nat then String backslash "r"
  else if isprintable ch then String ch ""
  else String backslash
         (String "x" (String (hex_digit (n / 16))
                        (String (hex_digit (n mod 16)) ""))).

Fixpoint escape_all (quote : ascii) (s : string) : string :=
  match s with
  | EmptyString => ""
  | String ch r => escape quote ch +:+ escape_all quote r
  end.

Fixpoint holds (ch : ascii) (s : string) : bool :=
  match s with
  | EmptyString => false
  | String ch' r => Ascii.eqb ch ch' || holds ch r
  end.

Definition repr (s : string) : string :=
  let quote := if holds single_quote s && negb (holds double_quote s)
               then double_quote else single_quote in
  String quote (escape_all quote s +:+ String quote "").

(** [str.isspace] on one character, for code points below 256. *)
Definition isspace (ch : ascii) : bool :=
  let n := nat_of_ascii ch in
  (((9 <=? n) && (n <=? 13)) || ((28 <=? n) && (n <=? 32))
   || (n =? 133) || (n =? 160))%nat.

(** [s.split()]: the maximal runs of non-space characters, in order.  [cur]
    is the token being read, [None] between tokens. *)
Fixpoint split_from (cur : option string) (s : string) : list string :=
  match s with
  | EmptyString => match cur with Some w => [w] | None => [] end
  | String ch r =>
      if isspace ch then
        match cur with
        | Some w => w :: split_from None r
        | None => split_from None r
        end
      else split_from (Some (default "" cur +:+ String ch "")) r
  end.

Definition split (s : string) : list string := split_from None s.

(** A file opened for reading in text mode is the text still to be read.
    [readline] returns the next line with its terminator (universal
    newlines: LF, CR LF and CR all end a line and are delivered as LF) and
    the new position; at the end of the file the line is empty. *)
Fixpoint readline (fl : string) : string * string :=
  match fl with
  | EmptyString => ("", "")
  | String ch r =>
      if Ascii.eqb ch "010" then (String "010" "", r)
      else if Ascii.eqb ch "013" then
        (String "010" "",
         match r with
         | String ch' r' => if Ascii.eqb ch' "010" then r' else r
         | EmptyString => r
         end)
      else let '(l, rest) := readline r in (String ch l, rest)
  end.

(** What [open(fileName, "r")] finds: a readable text, or a failure with
    the text of its [OSError] (or decoding error). *)
Inductive file : Type :=
| Readable (text : string)
| Unreadable (why : string).

Definition filesystem : Type := string → file.

Definition open (fs : filesystem) (fileName : string) : result string :=
  match fs fileName with
  | Readable text => ret text
  | Unreadable why => raise (OSError why)
  end.

(** The value of a Python expression returned by [solve]: the float
    [objective_value] or the int literal [-1]. *)
Inductive value : Type :=
| PyFloat (x : Q)
| PyInt (z : Z).

(** [==] on these values compares numerically across the two types. *)
Definition value_eqb (a b : value) : bool :=
  match a, b with
  | PyFloat x, PyFloat y => Qeq_bool x y
  | PyInt x, PyInt y => Z.eqb x y
  | PyFloat x, PyInt z | PyInt z, PyFloat x => Qeq_bool x (inject_Z z)
  end.

End Py.

Import Py.

Declare Scope py_scope.
Delimit Scope py_scope with py.
Notation "x <- m ;; k" := (bind m (λ x, k))
  (at level 100, m at next level, right associativity) : py_scope.
Local Open Scope py_scope.

(** ** numpy arrays *)

Module Np.
Section Arrays.
Context {F : Type}.

(** A two-dimensional [ndarray] in C order: its shape and its cells, row
    after row. *)
Record ndarray2 : Type := {
  shape0 : nat;
  shape1 : nat;
  flat : list F
}.

(** [np.zeros((r, c))] for a shape that numpy can allocate: a negative
    dimension is an error, and the array has [r * c] cells otherwise.
    numpy's own limits are left out: a dimension that does not fit its
    index type, or an array too big for the address space or the memory,
    is an error of numpy where this function returns an array.  The
    statements below that depend on the error of this call bound the
    dimensions. *)
Definition zeros (fzero : F) (r c : Z) : result ndarray2 :=
  if ((r <? 0) || (c <? 0))%Z
  then raise (ValueError "negative dimensions are not allowed")
  else ret {| shape0 := Z.to_nat r; shape1 := Z.to_nat c;
              flat := replicate (Z.to_nat r * Z.to_nat c) fzero |}.

Definition out_of_bounds (i axis size : nat) : exn :=
  IndexError ("index " +:+ pretty i +:+ " is out of bounds for axis "
              +:+ pretty axis +:+ " with size " +:+ pretty size).

(** [A[i, j] = v]. *)
Definition setitem2 (A : ndarray2) (i j : nat) (v : F) : result ndarray2 :=
  if negb (i <? shape0 A)%nat then raise (out_of_bounds i 0 (shape0 A))
  else if negb (j <? shape1 A)%nat then raise (out_of_bounds j 1 (shape1 A))
  else ret {| shape0 := shape0 A; shape1 := shape1 A;
              flat := <[i * shape1 A + j := v]> (flat A) |}.

(** [A[i, j]]. *)
Definition getitem2 (A : ndarray2) (i j : nat) : option F :=
  if ((i <? shape0 A) && (j <? shape1 A))%nat
  then flat A !! (i * shape1 A + j)%nat
  else None.

(** [A[:, j]]: column [j], one cell per row. *)
Definition column (A : ndarray2) (j : nat) : result (list F) :=
  if negb (j <? shape1 A)%nat then raise (out_of_bounds j 1 (shape1 A))
  else mapM (λ i, list_getitem (flat A) (i * shape1 A + j))
            (seq 0 (shape0 A)).

(** [a[i]] on a one-dimensional array. *)
Definition getitem1 (a : list F) (i : nat) : result F :=
  match a !! i with
  | Some v => ret v
  | None => raise (out_of_bounds i 0 (length a))
  end.
End Arrays.
Global Arguments ndarray2 : clear implicits.
End Np.

Import Np.

(** ** The problem instance and its parser *)

Section Parser.
(** The carrier of floats with its zero, and the two numeral readers. *)
Context {F : Type} (fzero : F).
Variable py_int : string → option Z.
Variable py_float : string → option F.

Record LPInstance : Type := {
  numCustomers : Z;
  numFacilities : Z;
  allocCostCF : ndarray2 F;
  demandC : list F;
  openingCostF : list F;
  capacityF : list F;
  numMaxVehiclePerFacility : Z;
  truckDistLimit : F;
  truckUsageCost : F;
  distanceCF : ndarray2 F
}.

(** [int(i)] and [float(i)] on one token.  The message ends with the
    [repr] of the token, of which [int] shows 200 characters at most. *)
Definition int_ : string → result Z :=
  read_token py_int
    (λ tok, ValueError ("invalid literal for int() with base 10: "
                        +:+ String.substring 0 200 (repr tok))).

Definition float_ : string → result F :=
  read_token py_float
    (λ tok, ValueError ("could not convert string to float: "
                        +:+ repr tok)).

(** The double loop of lines 34-38 and 50-54:
    [index = 0; for i: for j: A[i,j] = raw[index]; index += 1]. *)
Definition fill_cell (raw : list F) (i : nat)
    (st : ndarray2 F * nat) (j : nat) : result (ndarray2 F * nat) :=
  let '(A, index) := st in
  v <- list_getitem raw index ;;
  A' <- setitem2 A i j v ;;
  ret (A', S index).

Definition fill_row (raw : list F) (n_fac : Z)
    (st : ndarray2 F * nat) (i : nat) : result (ndarray2 F * nat) :=
  foldM (fill_cell raw i) (range n_fac) st.

Definition fill (raw : list F) (n_cust n_fac : Z) (A : ndarray2 F)
  : result (ndarray2 F) :=
  st <- foldM (fill_row raw n_fac) (range n_cust) (A, 0%nat) ;;
  ret (fst st).

(** The body of the [try] block, lines 26-66. *)
Definition getLPInstance_body (fs : filesystem) (fileName : string)
  : result LPInstance :=
  fl <- open fs fileName ;;
  let '(line, fl) := readline fl in
  dims <- mapM int_ (split line) ;;
  dim2 <- unpack2 dims ;;
  let '(numCustomers, numFacilities) := dim2 in
  let numMaxVehiclePerFacility := numCustomers in
  allocCostCF <- zeros fzero numCustomers numFacilities ;;
  let '(line, fl) := readline fl in
  allocCostraw <- mapM float_ (split line) ;;
  allocCostCF <- fill allocCostraw numCustomers numFacilities allocCostCF ;;
  let '(line, fl) := readline fl in
  demandC <- mapM float_ (split line) ;;
  let '(line, fl) := readline fl in
  openingCostF <- mapM float_ (split line) ;;
  let '(line, fl) := readline fl in
  capacityF <- mapM float_ (split line) ;;
  let '(line, fl) := readline fl in
  truck <- mapM float_ (split line) ;;
  truck2 <- unpack2 truck ;;
  let '(truckDistLimit, truckUsageCost) := truck2 in
  distanceCF <- zeros fzero numCustomers numFacilities ;;
  let '(line, fl) := readline fl in
  distanceCFraw <- mapM float_ (split line) ;;
  distanceCF <- fill distanceCFraw numCustomers numFacilities distanceCF ;;
  ret {| numCustomers := numCustomers;
         numFacilities := numFacilities;
         allocCostCF := allocCostCF;
         demandC := demandC;
         openingCostF := openingCostF;
         capacityF := capacityF;
         numMaxVehiclePerFacility := numMaxVehiclePerFacility;
         truckDistLimit := truckDistLimit;
         truckUsageCost := truckUsageCost;
         distanceCF := distanceCF |}.

(** [getLPInstance]: what is printed, and what is returned.  Every
    exception of the body is caught (line 69), reported on one line, and
    turned into [None]. *)
Definition error_prefix : string :=
  "Could not read problem instance file due to error: ".

Definition getLPInstance (fs : filesystem) (fileName : string)
  : list string * option LPInstance :=
  match getLPInstance_body fs fileName with
  | inr inst => ([], Some inst)
  | inl e => ([error_prefix +:+ str_exn e], None)
  end.
End Parser.
Global Arguments LPInstance : clear implicits.

(** ** Readers for plain decimal numerals

    [int_of_string] reads an optional sign and one or more decimal digits;
    [float_of_string] reads an optional sign, digits, and an optional point
    with digits, at least one digit in all ("5." and ".5" are numerals, "."
    is not), and returns the rational the numeral denotes: [m / 10^j] for
    the digits [m] and [j] of them after the point.  On such a token [int(...)] returns the same integer,
    and [float(...)] the same number whenever it is a double (integers below
    2^53, halves, quarters, ...).  Every other token is rejected here;
    Python accepts more (exponents, underscores, [inf], [nan]). *)

Module Numerals.

Definition digit (ch : ascii) : option Z :=
  let n := nat_of_ascii ch in
  if ((48 <=? n) && (n <=? 57))%nat then Some (Z.of_nat (n - 48)) else None.

(** Digits read so far as a number [acc], and how many were read. *)
Fixpoint digits (acc : Z) (count : nat) (s : string) : Z * nat * string :=
  match s with
  | String ch r =>
      match digit ch with
      | Some d => digits (10 * acc + d) (S count) r
      | None => (acc, count, s)
      end
  | EmptyString => (acc, count, s)
  end.

Definition sign (s : string) : Z * string :=
  match s with
  | String "-" r => ((-1)%Z, r)
  | String "+" r => (1%Z, r)
  | _ => (1%Z, s)
  end.

Definition int_of_string (s : string) : option Z :=
  let '(sg, s) := sign s in
  match digits 0 0 s with
  | (n, S _, EmptyString) => Some (sg * n)%Z
  | _ => None
  end.

Definition float_of_string (s : string) : option Q :=
  let '(sg, s) := sign s in
  let '(n, k, s) := digits 0 0 s in
  match s with
  | EmptyString =>
      match k with
      | O => None
      | S _ => Some (inject_Z (sg * n))
      end
  | String "." r =>
      match digits n 0 r with
      | (m, j, EmptyString) =>
          match (k + j)%nat with
          | O => None
          | S _ => Some (Qred (Qmake (sg * m) (Z.to_pos (10 ^ Z.of_nat j))))
          end
      | _ => None
      end
  | _ => None
  end.

End Numerals.


(** ** The docplex modelling layer

    The part of [docplex.mp.model.Model] that [solve] calls.  A linear
    expression is kept as the tree the calls build; [eval] gives its value
    under an assignment of the variables.  The library's division of an
    expression by a number checks the denominator and stops on zero, and
    otherwise multiplies by the inverse. *)

Module Docplex.

Inductive vartype : Type := Continuous | Integer | Binary.

Record Var : Type := {
  var_index : nat;
  var_type : vartype;
  var_lb : Q;
  var_ub : Q
}.

Inductive LinExpr : Type :=
| LConst (k : Q)
| LVar (v : Var)
| LPlus (a b : LinExpr)
| LTimes (k : Q) (e : LinExpr).

Inductive ctsense : Type := EQ | LE | GE.

Record Constraint : Type := {
  ct_lhs : LinExpr;
  ct_sense : ctsense;
  ct_rhs : Q;
  ct_name : option string
}.

Inductive objsense : Type := Minimize | Maximize.

Record Model : Type := {
  vars : list Var;
  constraints : list Constraint;
  objective : option (objsense * LinExpr)
}.

(** [Model()]. *)
Definition new_model : Model :=
  {| vars := []; constraints := []; objective := None |}.

(** [model.sum(args)]. *)
Definition sum (args : list LinExpr) : LinExpr :=
  foldl LPlus (LConst 0) args.

(** [model.scal_prod(terms, coefs)]: the terms are paired with the
    coefficients in order. *)
Definition scal_prod (terms : list Var) (coefs : list Q) : LinExpr :=
  sum (zip_with (λ v k, LTimes k (LVar v)) terms coefs).

(** [k * e] for a number [k]. *)
Definition times (k : Q) (e : LinExpr) : LinExpr := LTimes k e.

(** [e / k] for a number [k].  The library refuses a zero [k]; its
    message goes on after "Zero divide" with the text of [e], which is
    not kept here.  Otherwise the quotient is [e] scaled by the exact
    inverse of [k]. *)
Definition divide (e : LinExpr) (k : Q) : result LinExpr :=
  if Qeq_bool k 0 then raise (DOcplexException "Zero divide")
  else ret (LTimes (/ k) e).

(** [lhs == k] and [lhs <= k]. *)
Definition eq_ (lhs : LinExpr) (k : Q) : Constraint :=
  {| ct_lhs := lhs; ct_sense := EQ; ct_rhs := k; ct_name := None |}.
Definition le_ (lhs : LinExpr) (k : Q) : Constraint :=
  {| ct_lhs := lhs; ct_sense := LE; ct_rhs := k; ct_name := None |}.

(** Operations on the model object: they read and update it, and can
    raise; the object keeps what was done before a raise. *)
Definition M (A : Type) : Type := Model → Model * result A.

Definition retM {A} (a : A) : M A := λ m, (m, ret a).
Definition bindM {A B} (c : M A) (k : A → M B) : M B :=
  λ m, match c m with
       | (m', inr a) => k a m'
       | (m', inl e) => (m', inl e)
       end.
Definition lift {A} (r : result A) : M A := λ m, (m, r).

Fixpoint mapMS {A B} (g : A → M B) (l : list A) : M (list B) :=
  match l with
  | [] => retM []
  | a :: l' =>
      bindM (g a) (λ b, bindM (mapMS g l') (λ bs, retM (b :: bs)))
  end.

Fixpoint forM {A} (l : list A) (body : A → M unit) : M unit :=
  match l with
  | [] => retM tt
  | a :: l' => bindM (body a) (λ _, forM l' body)
  end.

(** [model.continuous_var_list(keys, lb, ub)] for an int [keys]: that many
    new variables, numbered after those the model already has. *)
Definition continuous_var_list (keys : Z) (lb ub : Q) : M (list Var) :=
  λ m,
    let new := map (λ i, {| var_index := length (vars m) + i;
                            var_type := Continuous;
                            var_lb := lb; var_ub := ub |}) (range keys) in
    ({| vars := vars m ++ new; constraints := constraints m;
        objective := objective m |}, ret new).

(** [model.add_constraint(ct, ctname)]. *)
Definition add_constraint (ct : Constraint) (ctname : option string)
  : M unit :=
  λ m,
    let ct' := {| ct_lhs := ct_lhs ct; ct_sense := ct_sense ct;
                  ct_rhs := ct_rhs ct;
                  ct_name := match ctname with
                             | Some n => Some n
                             | None => ct_name ct
                             end |} in
    ({| vars := vars m; constraints := constraints m ++ [ct'];
        objective := objective m |}, ret tt).

(** [model.minimize(e)]. *)
Definition minimize (e : LinExpr) : M unit :=
  λ m, ({| vars := vars m; constraints := constraints m;
           objective := Some (Minimize, e) |}, ret tt).

(** The value of an expression when variable number [i] takes the value
    [a i]. *)
Fixpoint eval (a : nat → Q) (e : LinExpr) : Q :=
  match e with
  | LConst k => k
  | LVar v => a (var_index v)
  | LPlus e1 e2 => (eval a e1 + eval a e2)%Q
  | LTimes k e' => (k * eval a e')%Q
  end.

Definition satisfies (a : nat → Q) (ct : Constraint) : Prop :=
  match ct_sense ct with
  | EQ => (eval a (ct_lhs ct) == ct_rhs ct)%Q
  | LE => (eval a (ct_lhs ct) <= ct_rhs ct)%Q
  | GE => (ct_rhs ct <= eval a (ct_lhs ct))%Q
  end.

Definition within_bounds (a : nat → Q) (v : Var) : Prop :=
  (var_lb v <= a (var_index v))%Q ∧ (a (var_index v) <= var_ub v)%Q.

(** An assignment is feasible for a model when it respects the bounds of
    every variable and every constraint. *)
Definition feasible (m : Model) (a : nat → Q) : Prop :=
  Forall (within_bounds a) (vars m) ∧ Forall (satisfies a) (constraints m).

End Docplex.

Import Docplex.

Notation "x <~ c ;; k" := (bindM c (λ x, k))
  (at level 100, c at next level, right associativity) : py_scope.

(** ** The solver object *)

Section Solver.
Variable py_int : string → option Z.
Variable py_float : string → option Q.

(** The external LP engine behind [model.solve()]: for a model it either
    finds a solution, whose objective value it reports, or reports none. *)
Variable cplex : Model → option Q.

Record LPSolver : Type := {
  lpinst : option (LPInstance Q);
  model : Model
}.

(** [LPSolver.__init__]: what the parser prints, and the new object. *)
Definition LPSolver_init (fs : filesystem) (filename : string)
  : list string * LPSolver :=
  let '(out, inst) := getLPInstance 0%Q py_int py_float fs filename in
  (out, {| lpinst := inst; model := new_model |}).

(** [x[f][c]]. *)
Definition x_at (x : list (list Var)) (f c : nat) : result Var :=
  xf <- list_getitem x f ;;
  list_getitem xf c.

(** Line 92-93. *)
Definition demand_satisfied (inst : LPInstance Q) (x : list (list Var))
    (c : nat) : M unit :=
  terms <~ lift (mapM (λ f, v <- x_at x f c ;; ret (LVar v))
                      (range (numFacilities inst))) ;;
  add_constraint (eq_ (sum terms) 1) None.

(** Line 94-98. *)
Definition facility_capacity (inst : LPInstance Q) (x : list (list Var))
    (f : nat) : M unit :=
  ct <~ lift (xf <- list_getitem x f ;;
              cap <- getitem1 (capacityF inst) f ;;
              ret (le_ (scal_prod xf (demandC inst)) cap)) ;;
  add_constraint ct (Some ("CapacityConstraint_F" +:+ pretty f)).

(** Line 99-100. *)
Definition max_truck (inst : LPInstance Q) (x : list (list Var))
    (f : nat) : M unit :=
  ct <~ lift (xf <- list_getitem x f ;;
              dist <- column (distanceCF inst) f ;;
              q <- divide (scal_prod xf dist) (truckDistLimit inst) ;;
              ret (le_ q (inject_Z (numMaxVehiclePerFacility inst)))) ;;
  add_constraint ct None.

(** The three generators of lines 103-109. *)
Definition opening_cost (inst : LPInstance Q) (x : list (list Var))
    (f : nat) : result LinExpr :=
  oc <- getitem1 (openingCostF inst) f ;;
  xf <- list_getitem x f ;;
  cap <- getitem1 (capacityF inst) f ;;
  divide (times oc (scal_prod xf (demandC inst))) cap.

Definition allocation_cost (inst : LPInstance Q) (x : list (list Var))
    (f : nat) : result LinExpr :=
  xf <- list_getitem x f ;;
  alloc <- column (allocCostCF inst) f ;;
  ret (scal_prod xf alloc).

Definition truck_usage_cost (inst : LPInstance Q) (x : list (list Var))
    (f : nat) : result LinExpr :=
  xf <- list_getitem x f ;;
  dist <- column (distanceCF inst) f ;;
  divide (times (truckUsageCost inst) (scal_prod xf dist))
         (truckDistLimit inst).

Definition total_cost (inst : LPInstance Q) (x : list (list Var))
  : result LinExpr :=
  let fs := range (numFacilities inst) in
  opening <- mapM (opening_cost inst x) fs ;;
  alloc <- mapM (allocation_cost inst x) fs ;;
  truck <- mapM (truck_usage_cost inst x) fs ;;
  ret (LPlus (LPlus (sum opening) (sum alloc)) (sum truck)).

(** Lines 89-110: variables, constraints and objective. *)
Definition formulate (inst : LPInstance Q) : M unit :=
  x <~ mapMS (λ _, continuous_var_list (numCustomers inst) 0 1)
             (range (numFacilities inst)) ;;
  _ <~ forM (range (numCustomers inst)) (demand_satisfied inst x) ;;
  _ <~ forM (range (numFacilities inst)) (facility_capacity inst x) ;;
  _ <~ forM (range (numFacilities inst)) (max_truck inst x) ;;
  cost <~ lift (total_cost inst x) ;;
  minimize cost.

Definition no_attribute (name : string) : exn :=
  AttributeError ("'NoneType' object has no attribute '" +:+ name +:+ "'").

(** [LPSolver.solve]: the model object after the call, and what the call
    returns or raises.  Line 84 reads [self.lpinst.numCustomers] first;
    what it prints is not modelled. *)
Definition solve (self : LPSolver) : Model * result value :=
  match lpinst self with
  | None => (model self, raise (no_attribute "numCustomers"))
  | Some inst =>
      match formulate inst (model self) with
      | (m, inl e) => (m, raise e)
      | (m, inr _) =>
          match cplex m with
          | Some objective_value => (m, ret (PyFloat objective_value))
          | None => (m, ret (PyInt (-1)))
          end
      end
  end.
End Solver.

(** ** Vocabulary of the file format *)

(** Line [k] of a text (counted from 0) as the parser meets it: the result
    of the [k+1]-th [readline].  Past the end of the file it is empty. *)
Definition line (text : string) (k : nat) : string :=
  fst (readline (Nat.iter k (λ fl, snd (readline fl)) text)).

Definition tokens (text : string) (k : nat) : list string :=
  split (line text k).

(** The reader [r] accepts every token of [toks], with values [vs]. *)
Definition reads {A} (r : string → option A) (toks : list string)
    (vs : list A) : Prop :=
  Forall2 (λ t v, r t = Some v) toks vs.

Definition numeric {A} (r : string → option A) (toks : list string) : Prop :=
  ∃ vs, reads r toks vs.

Section Format.
Context {F : Type}.
Variable py_int : string → option Z.
Variable py_float : string → option F.

(** The input format of the specification: seven lines, with the token
    counts the declared dimensions [C] and [Fn] call for. *)
Record well_formed (text : string) (C Fn : Z) : Prop := {
  wf_dims : reads py_int (tokens text 0) [C; Fn];
  wf_nonneg : (0 ≤ C)%Z ∧ (0 ≤ Fn)%Z;
  wf_alloc : numeric py_float (tokens text 1)
             ∧ length (tokens text 1) = (Z.to_nat C * Z.to_nat Fn)%nat;
  wf_demand : numeric py_float (tokens text 2)
              ∧ length (tokens text 2) = Z.to_nat C;
  wf_opening : numeric py_float (tokens text 3)
               ∧ length (tokens text 3) = Z.to_nat Fn;
  wf_capacity : numeric py_float (tokens text 4)
                ∧ length (tokens text 4) = Z.to_nat Fn;
  wf_truck : numeric py_float (tokens text 5)
             ∧ length (tokens text 5) = 2%nat;
  wf_distance : numeric py_float (tokens text 6)
                ∧ length (tokens text 6) = (Z.to_nat C * Z.to_nat Fn)%nat
}.

(** What the parser in fact requires of a text. *)
Record accepted (text : string) : Prop := {
  acc_dims : ∃ C Fn, reads py_int (tokens text 0) [C; Fn]
                     ∧ (0 ≤ C)%Z ∧ (0 ≤ Fn)%Z
                     ∧ (Z.to_nat C * Z.to_nat Fn ≤ length (tokens text 1))%nat
                     ∧ (Z.to_nat C * Z.to_nat Fn ≤ length (tokens text 6))%nat;
  acc_alloc : numeric py_float (tokens text 1);
  acc_demand : numeric py_float (tokens text 2);
  acc_opening : numeric py_float (tokens text 3);
  acc_capacity : numeric py_float (tokens text 4);
  acc_truck : numeric py_float (tokens text 5)
              ∧ length (tokens text 5) = 2%nat;
  acc_distance : numeric py_float (tokens text 6)
}.

(** Every field of [inst] holds what the text gives for it. *)
Record populated_from (text : string) (inst : LPInstance F) : Prop := {
  pop_dims : reads py_int (tokens text 0)
               [numCustomers inst; numFacilities inst];
  pop_nonneg : (0 ≤ numCustomers inst)%Z ∧ (0 ≤ numFacilities inst)%Z;
  pop_alloc :
    shape0 (allocCostCF inst) = Z.to_nat (numCustomers inst)
    ∧ shape1 (allocCostCF inst) = Z.to_nat (numFacilities inst)
    ∧ ∃ vs, reads py_float (tokens text 1) vs
            ∧ flat (allocCostCF inst)
              = take (Z.to_nat (numCustomers inst)
                      * Z.to_nat (numFacilities inst)) vs
            ∧ (Z.to_nat (numCustomers inst)
               * Z.to_nat (numFacilities inst) ≤ length vs)%nat;
  pop_demand : reads py_float (tokens text 2) (demandC inst);
  pop_opening : reads py_float (tokens text 3) (openingCostF inst);
  pop_capacity : reads py_float (tokens text 4) (capacityF inst);
  pop_vehicles : numMaxVehiclePerFacility inst = numCustomers inst;
  pop_truck : reads py_float (tokens text 5)
                [truckDistLimit inst; truckUsageCost inst];
  pop_distance :
    shape0 (distanceCF inst) = Z.to_nat (numCustomers inst)
    ∧ shape1 (distanceCF inst) = Z.to_nat (numFacilities inst)
    ∧ ∃ vs, reads py_float (tokens text 6) vs
            ∧ flat (distanceCF inst)
              = take (Z.to_nat (numCustomers inst)
                      * Z.to_nat (numFacilities inst)) vs
            ∧ (Z.to_nat (numCustomers inst)
               * Z.to_nat (numFacilities inst) ≤ length vs)%nat
}.


End Format.

(** An array that the filling loop has reached cell [k] of: the cells
    already copied from [raw], then the zeros still in place. *)
Definition partly_filled {F : Type} (fzero : F) (raw : list F)
    (r c k : nat) : ndarray2 F :=
  {| shape0 := r; shape1 := c;
     flat := take k raw ++ replicate (r * c - k) fzero |}.

(** ** Vocabulary of the formulation *)

(** Finite sums of rationals: of a list, and of [g 0 .. g (n-1)]. *)
Definition Qsum (l : list Q) : Q := foldr Qplus 0%Q l.
Definition big (n : nat) (g : nat → Q) : Q := Qsum (map g (seq 0 n)).

(** [l[i]] and [A[c, f]] as numbers (0 outside the array). *)
Definition at_ (l : list Q) (i : nat) : Q := default 0%Q (l !! i).
Definition cell (A : ndarray2 Q) (c f : nat) : Q :=
  default 0%Q (getitem2 A c f).

(** An array has the shape [r] by [c] and a cell for every position. *)
Definition well_shaped (A : ndarray2 Q) (r c : nat) : Prop :=
  shape0 A = r ∧ shape1 A = c ∧ length (flat A) = (r * c)%nat.

(** The continuous variable with bounds 0 and 1 that has number [i]. *)
Definition xvar (i : nat) : Var :=
  {| var_index := i; var_type := Continuous; var_lb := 0; var_ub := 1 |}.

Section FormulationVocabulary.
Variable inst : LPInstance Q.

Definition nC : nat := Z.to_nat (numCustomers inst).
Definition nF : nat := Z.to_nat (numFacilities inst).

(** The dimensions of the arrays agree with the declared ones. *)
Record consistent : Prop := {
  cons_alloc : well_shaped (allocCostCF inst) nC nF;
  cons_demand : length (demandC inst) = nC;
  cons_opening : length (openingCostF inst) = nF;
  cons_capacity : length (capacityF inst) = nF;
  cons_distance : well_shaped (distanceCF inst) nC nF
}.

(** No divisor of the formulation is zero. *)
Definition nondegenerate : Prop :=
  ¬ (truckDistLimit inst == 0)%Q
  ∧ ∀ f, (f < nF)%nat → ¬ (at_ (capacityF inst) f == 0)%Q.

(** The list [x] of line 89 on a new model: [x[f][c]] is variable number
    [f * nC + c]. *)
Definition x_row (f : nat) : list Var :=
  map (λ c, xvar (f * nC + c)) (seq 0 nC).
Definition x_vars : list (list Var) := map x_row (seq 0 nF).

(** The value of [x[f][c]] under an assignment. *)
Definition x_val (a : nat → Q) (f c : nat) : Q := a (f * nC + c)%nat.

(** The constraints and objective terms as [solve] builds them. *)
Definition distance_column (f : nat) : list Q :=
  map (λ c, cell (distanceCF inst) c f) (seq 0 nC).
Definition alloc_column (f : nat) : list Q :=
  map (λ c, cell (allocCostCF inst) c f) (seq 0 nC).

Definition cover_ct (c : nat) : Constraint :=
  eq_ (sum (map (λ f, LVar (xvar (f * nC + c))) (seq 0 nF))) 1.

Definition capacity_ct (f : nat) : Constraint :=
  {| ct_lhs := scal_prod (x_row f) (demandC inst);
     ct_sense := LE;
     ct_rhs := at_ (capacityF inst) f;
     ct_name := Some ("CapacityConstraint_F" +:+ pretty f) |}.

Definition truck_ct (f : nat) : Constraint :=
  le_ (LTimes (/ truckDistLimit inst)
              (scal_prod (x_row f) (distance_column f)))
      (inject_Z (numMaxVehiclePerFacility inst)).

Definition opening_term (f : nat) : LinExpr :=
  LTimes (/ at_ (capacityF inst) f)
         (LTimes (at_ (openingCostF inst) f)
                 (scal_prod (x_row f) (demandC inst))).

Definition alloc_term (f : nat) : LinExpr :=
  scal_prod (x_row f) (alloc_column f).

Definition truck_term (f : nat) : LinExpr :=
  LTimes (/ truckDistLimit inst)
         (LTimes (truckUsageCost inst)
                 (scal_prod (x_row f) (distance_column f))).

Definition cost_expr : LinExpr :=
  LPlus (LPlus (sum (map opening_term (seq 0 nF)))
               (sum (map alloc_term (seq 0 nF))))
        (sum (map truck_term (seq 0 nF))).

(** The three families of the specification, as conditions on the values
    of the variables. *)
Definition demand_covered (a : nat → Q) : Prop :=
  ∀ c, (c < nC)%nat → (big nF (λ f, x_val a f c) == 1)%Q.

Definition capacity_respected (a : nat → Q) : Prop :=
  ∀ f, (f < nF)%nat →
    (big nC (λ c, x_val a f c * at_ (demandC inst) c)
     <= at_ (capacityF inst) f)%Q.

Definition truck_cap_respected (a : nat → Q) : Prop :=
  ∀ f, (f < nF)%nat →
    (big nC (λ c, x_val a f c * cell (distanceCF inst) c f)
       / truckDistLimit inst
     <= inject_Z (numMaxVehiclePerFacility inst))%Q.

(** The objective of the specification. *)
Definition spec_objective (a : nat → Q) : Q :=
  big nF (λ f,
    at_ (openingCostF inst) f
      * big nC (λ c, x_val a f c * at_ (demandC inst) c)
      / at_ (capacityF inst) f
    + big nC (λ c, x_val a f c * cell (allocCostCF inst) c f)
    + truckUsageCost inst
        * big nC (λ c, x_val a f c * cell (distanceCF inst) c f)
        / truckDistLimit inst)%Q.

(** The model after the variables and the first two families: they never
    fail when there is a capacity for every facility, and the rest of the
    formulation runs on this model. *)
Definition after_capacity : Model :=
  {| vars := concat x_vars;
     constraints := map cover_ct (seq 0 nC)
                    ++ map capacity_ct (seq 0 nF);
     objective := None |}.

(** The model that a complete formulation builds from a new one. *)
Definition built : Model :=
  {| vars := concat x_vars;
     constraints := map cover_ct (seq 0 nC)
                    ++ map capacity_ct (seq 0 nF)
                    ++ map truck_ct (seq 0 nF);
     objective := Some (Minimize, cost_expr) |}.
End FormulationVocabulary.

(** A model with more constraints, and a model with more variables. *)
Definition add_cts (cts : list Constraint) (m : Model) : Model :=
  {| vars := vars m; constraints := constraints m ++ cts;
     objective := objective m |}.
Definition add_vars (vs : list Var) (m : Model) : Model :=
  {| vars := vars m ++ vs; constraints := constraints m;
     objective := objective m |}.


(** A loop whose bodies only add constraints leaves the variables and the
    objective alone and keeps the constraints already there, whether or
    not it raises. *)
Definition extends (m m' : Model) : Prop :=
  vars m' = vars m ∧ objective m' = objective m
  ∧ ∃ more, constraints m' = (constraints m ++ more)%list.

(** ** The properties of the specification *)

(** The instance that [getLPInstance] returns for a file. *)
Definition parsed {F : Type} (fzero : F) (py_int : string → option Z)
    (py_float : string → option F) (fs : filesystem) (fileName : string)
    (inst : LPInstance F) : Prop :=
  (getLPInstance fzero py_int py_float fs fileName).2 = Some inst.

(** A matrix holds the values of a token line: it has [r] rows and [c]
    columns, its cells in row-major order are the values of the tokens in
    order, and cell [(i, j)] is the value of token [i * c + j]. *)
Definition matrix_of_line {F : Type} (py_float : string → option F)
    (toks : list string) (A : ndarray2 F) (r c : nat) : Prop :=
  shape0 A = r ∧ shape1 A = c
  ∧ length toks = (r * c)%nat
  ∧ reads py_float toks (flat A)
  ∧ ∀ i j, (i < r)%nat → (j < c)%nat →
      ∃ t v, toks !! (i * c + j)%nat = Some t ∧ py_float t = Some v
             ∧ getitem2 A i j = Some v.

(** A family of [n] constraints of one sense: constraint [i] has the right
    hand side [rhs i] and a left hand side whose value is [lhs a i]. *)
Definition family (cts : list Constraint) (n : nat) (sense : ctsense)
    (rhs : nat → Q) (lhs : (nat → Q) → nat → Q) : Prop :=
  length cts = n
  ∧ ∀ i ct, cts !! i = Some ct →
      ct_sense ct = sense ∧ (ct_rhs ct == rhs i)%Q
      ∧ ∀ a, (eval a (ct_lhs ct) == lhs a i)%Q.

Definition three_families (inst : LPInstance Q) (m : Model) : Prop :=
  ∃ cover capacity truck,
    constraints m = (cover ++ capacity ++ truck)%list
    ∧ family cover (nC inst) EQ (λ _, 1%Q)
        (λ a c, big (nF inst) (λ f, x_val inst a f c))
    ∧ family capacity (nF inst) LE (at_ (capacityF inst))
        (λ a f, big (nC inst)
                  (λ c, x_val inst a f c * at_ (demandC inst) c)%Q)
    ∧ family truck (nF inst) LE
        (λ _, inject_Z (numMaxVehiclePerFacility inst))
        (λ a f, big (nC inst)
                  (λ c, x_val inst a f c * cell (distanceCF inst) c f)
                / truckDistLimit inst)%Q.

(** The variables of the model are the [x[f][c]], continuous in [0, 1]. *)
Definition declares_x (inst : LPInstance Q) (m : Model) : Prop :=
  Z.of_nat (length (vars m)) = (numFacilities inst * numCustomers inst)%Z
  ∧ (∀ f c, (f < nF inst)%nat → (c < nC inst)%nat →
       vars m !! (f * nC inst + c)%nat = Some (xvar (f * nC inst + c)))
  ∧ Forall (λ v, var_type v = Continuous
                 ∧ var_lb v = 0%Q ∧ var_ub v = 1%Q) (vars m).

Definition minimizes_spec_objective (inst : LPInstance Q) (m : Model)
  : Prop :=
  ∃ e, objective m = Some (Minimize, e)
       ∧ ∀ a, (eval a e == spec_objective inst a)%Q.

(** The divisors as the specification names them: the distance limit and
    every capacity of the instance. *)
Definition divisors_nonzero (inst : LPInstance Q) : Prop :=
  ¬ (truckDistLimit inst == 0)%Q
  ∧ Forall (λ v, ¬ (v == 0)%Q) (capacityF inst).







(** The constraints of a model are the three families of the
    specification and nothing else. *)
Definition constraints_as_specified (inst : LPInstance Q) (m : Model)
  : Prop :=
  three_families inst m
  ∧ ∀ a, Forall (satisfies a) (constraints m) ↔
         demand_covered inst a ∧ capacity_respected inst a
         ∧ truck_cap_respected inst a.



(** The solver object built on an absent instance, and its [solve]. *)
Definition absent_instance_raises (cplex : Model → option Q)
    (self : LPSolver) : Prop :=
  lpinst self = None ∧ model self = new_model
  ∧ solve cplex self = (new_model, raise (no_attribute "numCustomers"))
  ∧ ∀ r, (solve cplex self).2 ≠ ret r.

(** ** Example files *)

Module Examples.
Import Numerals.
Local Open Scope string_scope.

Definition nl : string := String "010" "".

Definition text_of (lines : list string) : string :=
  foldr (λ l rest, l +:+ nl +:+ rest) "" lines.

(** The scenario of the specification: two customers, two facilities. *)
Definition scenario_text : string :=
  text_of ["2 2"; "1 2 2 1"; "10 10"; "5 5"; "20 20"; "100 1"; "1 1 1 1"].

(** The same with one demand only on line 3. *)
Definition short_demand_text : string :=
  text_of ["2 2"; "1 2 2 1"; "10"; "5 5"; "20 20"; "100 1"; "1 1 1 1"].

(** The same with a zero distance limit. *)
Definition zero_limit_text : string :=
  text_of ["2 2"; "1 2 2 1"; "10 10"; "5 5"; "20 20"; "0 1"; "1 1 1 1"].

(** The same with a total capacity of 10 for a total demand of 20. *)
Definition scarce_text : string :=
  text_of ["2 2"; "1 2 2 1"; "10 10"; "5 5"; "5 5"; "100 1"; "1 1 1 1"].

(** No customer, no facility and a zero distance limit. *)
Definition no_facility_text : string :=
  text_of ["0 0"; ""; ""; ""; ""; "0 5"; ""].

Definition fs : filesystem := λ name,
  if String.eqb name "scenario.txt" then Readable scenario_text
  else if String.eqb name "short_demand.txt" then Readable short_demand_text
  else if String.eqb name "zero_limit.txt" then Readable zero_limit_text
  else if String.eqb name "scarce.txt" then Readable scarce_text
  else if String.eqb name "no_facility.txt" then Readable no_facility_text
  else Unreadable ("[Errno 2] No such file or directory: '"
                   +:+ name +:+ "'").

Definition matrix (r c : nat) (cells : list Q) : ndarray2 Q :=
  {| shape0 := r; shape1 := c; flat := cells |}.

(** The instance of the scenario with other demands, capacities and
    distance limit. *)
Definition instance_of (demand capacity : list Q) (limit : Q)
  : LPInstance Q :=
  {| numCustomers := 2; numFacilities := 2;
     allocCostCF := matrix 2 2 [1; 2; 2; 1]%Q;
     demandC := demand;
     openingCostF := [5; 5]%Q;
     capacityF := capacity;
     numMaxVehiclePerFacility := 2;
     truckDistLimit := limit;
     truckUsageCost := 1%Q;
     distanceCF := matrix 2 2 [1; 1; 1; 1]%Q |}.

Definition scenario : LPInstance Q :=
  instance_of [10; 10]%Q [20; 20]%Q 100%Q.
Definition zero_limit : LPInstance Q :=
  instance_of [10; 10]%Q [20; 20]%Q 0%Q.


(** Two engines: one that never finds a solution, one that reports the
    value 0 for every model. *)
Definition finds_nothing : Model → option Q := λ _, None.
Definition finds_zero : Model → option Q := λ _, Some 0%Q.

(** The solver object for a file of [fs]. *)
Definition solver_for (name : string) : LPSolver :=
  (LPSolver_init int_of_string float_of_string fs name).2.
End Examples.

(** ** More vocabulary for the parser and the solver object *)

(** A dimension of at most 32 bits: numpy converts it to its index type,
    and meets its sign before any limit on the size of an array. *)
Definition fits_32_bits (z : Z) : Prop := (- 2 ^ 31 ≤ z < 2 ^ 31)%Z.

(** The solver object once [solve] was called on it: the same instance,
    and the model as the call left it. *)
Definition after_solve (cplex : Model → option Q) (self : LPSolver)
  : LPSolver :=
  {| lpinst := lpinst self; model := (solve cplex self).1 |}.

(** [m'] is [m] with [n_vars] more variables and [n_cts] more
    constraints, after those of [m]. *)
Definition grows_by (m m' : Model) (n_vars n_cts : nat) : Prop :=
  (∃ vs, vars m' = (vars m ++ vs)%list ∧ length vs = n_vars)
  ∧ (∃ cts, constraints m' = (constraints m ++ cts)%list
            ∧ length cts = n_cts).

(** Costs, demands and distances are not negative, capacities and the
    distance limit are positive. *)
Record nonnegative_data (inst : LPInstance Q) : Prop := {
  nn_alloc : Forall (λ v, 0 <= v)%Q (flat (allocCostCF inst));
  nn_demand : Forall (λ v, 0 <= v)%Q (demandC inst);
  nn_opening : Forall (λ v, 0 <= v)%Q (openingCostF inst);
  nn_capacity : Forall (λ v, 0 < v)%Q (capacityF inst);
  nn_limit : (0 < truckDistLimit inst)%Q;
  nn_usage : (0 <= truckUsageCost inst)%Q;
  nn_distance : Forall (λ v, 0 <= v)%Q (flat (distanceCF inst))
}.

(** Every round trip fits the distance limit of one truck. *)
Definition trips_fit (inst : LPInstance Q) : Prop :=
  (0 < truckDistLimit inst)%Q
  ∧ Forall (λ d, 0 <= d ∧ d <= truckDistLimit inst)%Q
           (flat (distanceCF inst)).

(** What [solve] leaves and raises when line 5 is [k] values long for
    more than [k] facilities. *)
Definition stops_at_capacity (inst : LPInstance Q) (k : nat)
    (run : Model * result value) : Prop :=
  run.2 = raise (out_of_bounds k 0 k)
  ∧ vars run.1 = concat (x_vars inst)
  ∧ constraints run.1
    = (map (cover_ct inst) (seq 0 (nC inst))
       ++ map (capacity_ct inst) (seq 0 k))%list
  ∧ objective run.1 = None.

(** ** The diet example

    [dietProblem] builds a model of its own and prints what the solver
    finds.  A solution gives the values of the variables and the objective
    value; the property [objective_value] of a model that was not solved
    is an error of the library.  What is printed is kept as items, the
    numbers as numbers: the table of [print_information], a text, and a
    text followed by a float or by an int. *)

Module Diet.

Record Solution : Type := {
  solution_value : nat → Q;
  solution_objective : Q
}.

Inductive printed : Type :=
| Information (m : Model)
| Line (text : string)
| FloatLine (label : string) (x : Q)
| IntLine (label : string) (z : Z).

(** [lhs >= k]. *)
Definition ge_ (lhs : LinExpr) (k : Q) : Constraint :=
  {| ct_lhs := lhs; ct_sense := GE; ct_rhs := k; ct_name := None |}.

(** The error of [objective_value] on a model without solution; the
    library puts the name of the model after "Model". *)
Definition not_solved : exn :=
  DOcplexException "Model did not solve successfully".

(** [m.objective_value] when the last [m.solve()] returned [sol]. *)
Definition objective_value (sol : option Solution) : result Q :=
  match sol with
  | Some s => ret (solution_objective s)
  | None => raise not_solved
  end.

(** Lines 123-132: the model, and the list [mvars]. *)
Definition build : M (list Var) :=
  mvars <~ continuous_var_list 2 0 1000 ;;
  let carbs := scal_prod mvars [100; 250]%Q in
  _ <~ add_constraint (ge_ carbs 500) None ;;
  _ <~ add_constraint (ge_ (scal_prod mvars [100; 50]%Q) 250) None ;;
  _ <~ add_constraint (ge_ (scal_prod mvars [150; 200]%Q) 600) None ;;
  _ <~ minimize (scal_prod mvars [25; 15]%Q) ;;
  retM mvars.

(** [dietProblem]: what is printed, and how the call ends. *)
Definition dietProblem (engine : Model → option Solution)
  : list printed * result unit :=
  match build new_model with
  | (m, inl e) => ([], raise e)
  | (m, inr mvars) =>
      let out := [Information m] in
      let sol := engine m in
      match objective_value sol with
      | inl e => (out, raise e)
      | inr v =>
          let obj_value := Qceiling v in
          match sol with
          | Some s =>
              let out := (out ++ [Information m])%list in
              match list_getitem mvars 0 with
              | inl e => (out, raise e)
              | inr meat =>
                  let out :=
                    (out ++ [FloatLine "Meat: "
                               (solution_value s (var_index meat))])%list in
                  match list_getitem mvars 1 with
                  | inl e => (out, raise e)
                  | inr bread =>
                      ((out ++ [FloatLine "Bread: "
                                  (solution_value s (var_index bread));
                                IntLine "Objective Value: " obj_value])%list,
                       ret tt)
                  end
              end
          | None => ((out ++ [Line "No solution found!"])%list, ret tt)
          end
      end
  end.

(** The model that [dietProblem] hands to the solver. *)
Definition diet : Model := (build new_model).1.

(** The engine is exact on a model: it finds a feasible assignment of
    least objective value, and reports that value. *)
Definition exact_on (engine : Model → option Solution) (m : Model) : Prop :=
  ∃ s e, engine m = Some s ∧ objective m = Some (Minimize, e)
         ∧ feasible m (solution_value s)
         ∧ (solution_objective s == eval (solution_value s) e)%Q
         ∧ ∀ a, feasible m a → (eval (solution_value s) e <= eval a e)%Q.

(** An engine that reports 1.6 of meat and 1.8 of bread at the cost 67,
    and one that finds nothing. *)
Definition finds_optimum : Model → option Solution := λ _,
  Some {| solution_value := λ i, if (i =? 0)%nat then 8 # 5 else 9 # 5;
          solution_objective := 67 |}.
Definition finds_nothing : Model → option Solution := λ _, None.

End Diet.

(** ** More example files *)

Module MoreExamples.
Import Numerals.
Local Open Scope string_scope.

Definition tab : string := String "009" "".
Definition crlf : string := String "013" (String "010" "").

(** The scenario with another layout: leading blanks, tabs, CR LF line
    ends, and text after the seventh line. *)
Definition respaced_text : string :=
  "  2   2" +:+ crlf +:+ "1 2" +:+ tab +:+ "2 1 " +:+ crlf
  +:+ "10 10" +:+ crlf +:+ tab +:+ "5 5" +:+ crlf +:+ "20  20" +:+ crlf
  +:+ "100 1" +:+ crlf +:+ "1 1 1 1" +:+ crlf
  +:+ "remarks that no line of the parser reads" +:+ crlf.

(** Negative dimensions, and one capacity short on line 5. *)
Definition negative_text : string :=
  Examples.text_of ["2 -2"; "not numbers"].
Definition short_capacity_text : string :=
  Examples.text_of ["2 2"; "1 2 2 1"; "10 10"; "5 5"; "20"; "100 1";
                    "1 1 1 1"].

(** The scenario with two more values at the end of line 2. *)
Definition surplus_text : string :=
  Examples.text_of ["2 2"; "1 2 2 1 9 9"; "10 10"; "5 5"; "20 20"; "100 1";
                    "1 1 1 1"].

(** The scenario with one opening cost only on line 4; with a third
    capacity, which is zero, on line 5; with the capacities 5 and 0; and
    with one capacity of 5 only. *)
Definition short_opening_text : string :=
  Examples.text_of ["2 2"; "1 2 2 1"; "10 10"; "5"; "20 20"; "100 1";
                    "1 1 1 1"].
Definition spare_zero_text : string :=
  Examples.text_of ["2 2"; "1 2 2 1"; "10 10"; "5 5"; "20 20 0"; "100 1";
                    "1 1 1 1"].
Definition zero_capacity_text : string :=
  Examples.text_of ["2 2"; "1 2 2 1"; "10 10"; "5 5"; "5 0"; "100 1";
                    "1 1 1 1"].
Definition lone_capacity_text : string :=
  Examples.text_of ["2 2"; "1 2 2 1"; "10 10"; "5 5"; "5"; "100 1";
                    "1 1 1 1"].

(** One customer and one facility: with a second demand on line 3, and
    with a second capacity, which is negative, on line 5. *)
Definition spare_demand_text : string :=
  Examples.text_of ["1 1"; "1"; "1 100"; "5"; "5"; "100 1"; "1"].
Definition spare_capacity_text : string :=
  Examples.text_of ["1 1"; "1"; "10"; "5"; "20 -100"; "100 1"; "1"].

Definition fs : filesystem := λ name,
  if String.eqb name "respaced.txt" then Readable respaced_text
  else if String.eqb name "surplus.txt" then Readable surplus_text
  else if String.eqb name "empty.txt" then Readable ""
  else if String.eqb name "negative.txt" then Readable negative_text
  else if String.eqb name "short_capacity.txt"
       then Readable short_capacity_text
  else if String.eqb name "short_opening.txt" then Readable short_opening_text
  else if String.eqb name "spare_zero.txt" then Readable spare_zero_text
  else if String.eqb name "zero_capacity.txt" then Readable zero_capacity_text
  else if String.eqb name "lone_capacity.txt" then Readable lone_capacity_text
  else if String.eqb name "spare_demand.txt" then Readable spare_demand_text
  else if String.eqb name "spare_capacity.txt"
       then Readable spare_capacity_text
  else Examples.fs name.

Definition short_capacity : LPInstance Q :=
  Examples.instance_of [10; 10]%Q [20]%Q 100%Q.

Definition short_opening : LPInstance Q :=
  {| numCustomers := 2; numFacilities := 2;
     allocCostCF := Examples.matrix 2 2 [1; 2; 2; 1]%Q;
     demandC := [10; 10]%Q;
     openingCostF := [5]%Q;
     capacityF := [20; 20]%Q;
     numMaxVehiclePerFacility := 2;
     truckDistLimit := 100%Q;
     truckUsageCost := 1%Q;
     distanceCF := Examples.matrix 2 2 [1; 1; 1; 1]%Q |}.




(** The assignment that serves customer 0 from facility 0 and customer 1
    from facility 1, and the one that gives every variable the value 1. *)
Definition each_its_own : nat → Q :=
  λ i, if ((i =? 0) || (i =? 3))%nat then 1%Q else 0%Q.

Definition solver_for (name : string) : LPSolver :=
  (LPSolver_init int_of_string float_of_string fs name).2.
End MoreExamples.

(** ** Facts about the runtime pieces *)

Local Close Scope string_scope.

Lemma bind_inr {A B} (m : result A) (k : A → result B) (b : B) :
  bind m k = inr b ↔ ∃ a, m = inr a ∧ k a = inr b.
Proof.
  destruct m as [e|a]; simpl; split.
  - discriminate.
  - intros (a & Ha & _). discriminate.
  - eauto.
  - intros (a' & Ha & Hk). by simplify_eq.
Qed.

Lemma reads_length {A} (r : string → option A) toks vs :
  reads r toks vs → length toks = length vs.
Proof. apply Forall2_length. Qed.

Lemma reads_inj {A} (r : string → option A) toks vs vs' :
  reads r toks vs → reads r toks vs' → vs = vs'.
Proof.
  intros H; revert vs'. induction H as [|t v toks vs Hr _ IH];
    intros vs' H'; inversion H'; subst; [done|].
  f_equal; [congruence | by apply IH].
Qed.

Lemma reads_lookup {A} (r : string → option A) toks vs i v :
  reads r toks vs → vs !! i = Some v →
  ∃ t, toks !! i = Some t ∧ r t = Some v.
Proof.
  intros H Hv.
  destruct (Forall2_lookup_r _ _ _ _ _ H Hv) as (t & Ht & Hr). eauto.
Qed.

Section ReaderFacts.
Context {A : Type} (r : string → option A) (describe : string → exn).

Local Abbreviation read := (read_token r describe).

(** A comprehension over the tokens of a line returns exactly when the
    reader accepts every token. *)
Lemma mapM_reads toks vs : mapM read toks = inr vs ↔ reads r toks vs.
Proof.
  unfold reads. revert vs. induction toks as [|t toks IH]; intros vs; simpl.
  - split.
    + intros [= <-]. constructor.
    + intros H. by apply Forall2_nil_inv_l in H as ->.
  - unfold read_token at 1. destruct (r t) as [v|] eqn:Hr; simpl.
    + destruct (mapM read toks) as [e|vs'] eqn:Hm; simpl.
      * split; [discriminate|]. intros H.
        apply Forall2_cons_inv_l in H as (y & l' & _ & Hl & ->).
        apply IH in Hl. discriminate.
      * split.
        -- intros [= <-]. constructor; [done|]. by apply IH.
        -- intros H.
           apply Forall2_cons_inv_l in H as (y & l' & Hy & Hl & ->).
           apply IH in Hl. by simplify_eq.
    + split; [discriminate|]. intros H.
      apply Forall2_cons_inv_l in H as (y & l' & Hy & _ & ->).
      congruence.
Qed.

Lemma mapM_numeric toks :
  (∃ vs, mapM read toks = inr vs) ↔ numeric r toks.
Proof.
  unfold numeric. split; intros [vs H]; exists vs; by apply mapM_reads.
Qed.
End ReaderFacts.

Lemma unpack2_inr {A} (l : list A) (a b : A) :
  unpack2 l = inr (a, b) ↔ l = [a; b].
Proof.
  unfold unpack2, raise, ret.
  destruct l as [|x [|y [|z l]]]; split; intros H;
    try discriminate; by simplify_eq.
Qed.

(** ** The filling loops *)

Section Fill.
Context {F : Type} (fzero : F).
Implicit Types (raw : list F) (A : ndarray2 F).

Local Abbreviation filled := (partly_filled fzero).

Lemma partly_filled_step raw r c k v :
  raw !! k = Some v → (k < r * c)%nat →
  <[k := v]> (flat (filled raw r c k))
  = flat (filled raw r c (S k)).
Proof.
  intros Hv Hk. simpl.
  assert (Hlen : length (take k raw) = k).
  { apply length_take_le. apply lookup_lt_Some in Hv. lia. }
  rewrite insert_app_r_alt by lia. rewrite Hlen, Nat.sub_diag.
  replace (r * c - k)%nat with (S (r * c - S k)) by lia.
  simpl. rewrite (take_S_r _ _ _ Hv), <- app_assoc. done.
Qed.

(** One row of the loop, from column [j0] on: it copies [len] cells, or
    stops with [IndexError] when [raw] runs out. *)
Lemma fill_cells raw r c i len : ∀ j0,
  (i < r)%nat → (j0 + len ≤ c)%nat → (i * c + j0 ≤ length raw)%nat →
  foldM (fill_cell raw i) (seq j0 len)
        (filled raw r c (i * c + j0), (i * c + j0)%nat)
  = if decide (i * c + j0 + len ≤ length raw)%nat
    then ret (filled raw r c (i * c + j0 + len),
              (i * c + j0 + len)%nat)
    else raise (IndexError "list index out of range").
Proof.
  induction len as [|len IH]; intros j0 Hi Hj Hraw; simpl.
  - rewrite Nat.add_0_r. by rewrite decide_True by lia.
  - unfold list_getitem.
    destruct (raw !! (i * c + j0)%nat) as [v|] eqn:Hv; simpl.
    + apply lookup_lt_Some in Hv as Hlt.
      unfold setitem2. simpl.
      assert (i * c + j0 < r * c)%nat by nia.
      rewrite (proj2 (Nat.ltb_lt i r)) by done.
      rewrite (proj2 (Nat.ltb_lt j0 c)) by lia. simpl.
      pose proof (partly_filled_step raw r c _ v Hv H) as Hstep.
      simpl in Hstep. rewrite Hstep.
      replace (S (i * c + j0)) with (i * c + S j0)%nat by lia.
      change {| shape0 := r; shape1 := c;
                flat := take (i * c + S j0) raw
                        ++ replicate (r * c - (i * c + S j0)) fzero |}
        with (filled raw r c (i * c + S j0)).
      rewrite IH by lia.
      replace (i * c + S j0 + len)%nat with (i * c + j0 + S len)%nat by lia.
      done.
    + apply lookup_ge_None in Hv. by rewrite decide_False by lia.
Qed.

(** The rows from [i0] on. *)
Lemma fill_rows raw r c (cz : Z) len : ∀ i0,
  c = Z.to_nat cz →
  (i0 + len ≤ r)%nat → (i0 * c ≤ length raw)%nat →
  foldM (fill_row raw cz) (seq i0 len)
        (filled raw r c (i0 * c), (i0 * c)%nat)
  = if decide ((i0 + len) * c ≤ length raw)%nat
    then ret (filled raw r c ((i0 + len) * c),
              ((i0 + len) * c)%nat)
    else raise (IndexError "list index out of range").
Proof.
  induction len as [|len IH]; intros i0 Hc Hi Hraw; simpl.
  - rewrite Nat.add_0_r. by rewrite decide_True by lia.
  - unfold fill_row at 1. unfold range. rewrite <- Hc.
    pose proof (fill_cells raw r c i0 c 0) as Hrow.
    rewrite !Nat.add_0_r in Hrow. rewrite Hrow by lia. clear Hrow.
    destruct (decide (i0 * c + c ≤ length raw)%nat) as [Hle|Hgt]; simpl.
    + replace (i0 * c + c)%nat with (S i0 * c)%nat by lia.
      rewrite IH by (done || lia).
      replace (S i0 + len)%nat with (i0 + S len)%nat by lia. done.
    + rewrite decide_False by nia. done.
Qed.

(** The whole loop on a new array of zeros. *)
Lemma fill_zeros raw (rz cz : Z) :
  (0 ≤ rz)%Z → (0 ≤ cz)%Z →
  (A0 <- zeros fzero rz cz ;; fill raw rz cz A0)
  = if decide (Z.to_nat rz * Z.to_nat cz ≤ length raw)%nat
    then ret {| shape0 := Z.to_nat rz; shape1 := Z.to_nat cz;
                flat := take (Z.to_nat rz * Z.to_nat cz) raw |}
    else raise (IndexError "list index out of range").
Proof.
  intros Hr Hc. unfold zeros.
  rewrite (proj2 (Z.ltb_ge rz 0)) by done.
  rewrite (proj2 (Z.ltb_ge cz 0)) by done. simpl.
  unfold fill, range.
  pose proof (fill_rows raw (Z.to_nat rz) (Z.to_nat cz) cz
                (Z.to_nat rz) 0 eq_refl) as H.
  simpl in H. unfold partly_filled at 1 in H. simpl in H.
  rewrite Nat.sub_0_r in H. rewrite H by lia. clear H.
  destruct (decide _); simpl; [|done].
  unfold partly_filled. rewrite Nat.sub_diag. simpl.
  by rewrite app_nil_r.
Qed.

Lemma zeros_negative (rz cz : Z) :
  (rz < 0 ∨ cz < 0)%Z →
  zeros fzero rz cz = raise (ValueError "negative dimensions are not allowed").
Proof.
  intros H. unfold zeros.
  destruct (Z.ltb_spec rz 0), (Z.ltb_spec cz 0); simpl; try done; lia.
Qed.
End Fill.

(** ** The parser, line by line *)

Section ParserFacts.
Context {F : Type} (fzero : F).
Variable py_int : string → option Z.
Variable py_float : string → option F.

Local Abbreviation int_ := (int_ py_int).
Local Abbreviation float_ := (float_ py_float).
Local Abbreviation body := (getLPInstance_body fzero py_int py_float).

Lemma mapM_int_reads toks zs : mapM int_ toks = inr zs ↔ reads py_int toks zs.
Proof. apply mapM_reads. Qed.

Lemma mapM_float_reads toks vs :
  mapM float_ toks = inr vs ↔ reads py_float toks vs.
Proof. apply mapM_reads. Qed.

(** The body of the parser in terms of the token lines of the text. *)
Lemma body_tokens fs fileName :
  body fs fileName
  = match fs fileName with
    | Unreadable why => raise (OSError why)
    | Readable text =>
        dims <- mapM int_ (tokens text 0) ;;
        dim2 <- unpack2 dims ;;
        A0 <- zeros fzero dim2.1 dim2.2 ;;
        raw1 <- mapM float_ (tokens text 1) ;;
        A <- fill raw1 dim2.1 dim2.2 A0 ;;
        d <- mapM float_ (tokens text 2) ;;
        o <- mapM float_ (tokens text 3) ;;
        cap <- mapM float_ (tokens text 4) ;;
        truck <- mapM float_ (tokens text 5) ;;
        truck2 <- unpack2 truck ;;
        D0 <- zeros fzero dim2.1 dim2.2 ;;
        raw6 <- mapM float_ (tokens text 6) ;;
        D <- fill raw6 dim2.1 dim2.2 D0 ;;
        ret {| numCustomers := dim2.1; numFacilities := dim2.2;
               allocCostCF := A; demandC := d; openingCostF := o;
               capacityF := cap; numMaxVehiclePerFacility := dim2.1;
               truckDistLimit := truck2.1; truckUsageCost := truck2.2;
               distanceCF := D |}
    end.
Proof.
  unfold getLPInstance_body, open, tokens, line.
  destruct (fs fileName) as [text|why]; [|done]. simpl.
  destruct (readline text) as [l0 r0]; simpl.
  destruct (readline r0) as [l1 r1]; simpl.
  destruct (readline r1) as [l2 r2]; simpl.
  destruct (readline r2) as [l3 r3]; simpl.
  destruct (readline r3) as [l4 r4]; simpl.
  destruct (readline r4) as [l5 r5]; simpl.
  destruct (readline r5) as [l6 r6]; simpl.
  destruct (mapM int_ (split l0)) as [e|dims]; [done|]. simpl.
  destruct (unpack2 dims) as [e|[C Fn]]; [done|]. simpl.
  destruct (zeros fzero C Fn) as [e|A0]; [done|]. simpl.
  destruct (mapM float_ (split l1)) as [e|raw1]; [done|]. simpl.
  destruct (fill raw1 C Fn A0) as [e|A]; [done|]. simpl.
  destruct (mapM float_ (split l2)) as [e|d]; [done|]. simpl.
  destruct (mapM float_ (split l3)) as [e|o]; [done|]. simpl.
  destruct (mapM float_ (split l4)) as [e|cap]; [done|]. simpl.
  destruct (mapM float_ (split l5)) as [e|truck]; [done|]. simpl.
  destruct (unpack2 truck) as [e|[lim cost]]; [done|]. simpl.
  done.
Qed.

Lemma zeros_fill raw (rz cz : Z) A :
  (A0 <- zeros fzero rz cz ;; fill raw rz cz A0) = inr A ↔
  (0 ≤ rz)%Z ∧ (0 ≤ cz)%Z
  ∧ (Z.to_nat rz * Z.to_nat cz ≤ length raw)%nat
  ∧ A = {| shape0 := Z.to_nat rz; shape1 := Z.to_nat cz;
           flat := take (Z.to_nat rz * Z.to_nat cz) raw |}.
Proof.
  destruct (decide (0 ≤ rz ∧ 0 ≤ cz)%Z) as [[Hr Hc]|Hneg].
  - rewrite fill_zeros by done. destruct (decide _) as [Hle|Hgt].
    + split; [intros [= <-]; done | intros (_ & _ & _ & ->); done].
    + split; [discriminate | intros (_ & _ & ? & _); lia].
  - rewrite zeros_negative by lia. simpl.
    split; [discriminate | intros (? & ? & _); lia].
Qed.

(** The body returns an instance exactly when the file is readable and
    every field is filled from its line. *)
Lemma body_populated fs fileName inst :
  body fs fileName = inr inst ↔
  ∃ text, fs fileName = Readable text
          ∧ populated_from py_int py_float text inst.
Proof.
  rewrite body_tokens. destruct (fs fileName) as [text|why]; last first.
  { split; [discriminate | intros (? & ? & _); discriminate]. }
  split.
  - intros H. exists text. split; [done|].
    apply bind_inr in H as (dims & Hdims & H).
    apply bind_inr in H as ([C Fn] & Hdim2 & H). simpl in H.
    apply unpack2_inr in Hdim2 as ->. apply mapM_int_reads in Hdims.
    destruct (zeros fzero C Fn) as [e|A0] eqn:HA0; [discriminate|].
    simpl in H.
    apply bind_inr in H as (raw1 & Hraw1 & H).
    apply mapM_float_reads in Hraw1.
    destruct (fill raw1 C Fn A0) as [e|A] eqn:HA; [discriminate|].
    simpl in H.
    assert (HA' : (A0 <- zeros fzero C Fn ;; fill raw1 C Fn A0) = inr A)
      by (rewrite HA0; done).
    apply zeros_fill in HA' as (HC & HFn & Hlen1 & ->).
    apply bind_inr in H as (d & Hd & H). apply mapM_float_reads in Hd.
    apply bind_inr in H as (o & Ho & H). apply mapM_float_reads in Ho.
    apply bind_inr in H as (cap & Hcap & H). apply mapM_float_reads in Hcap.
    apply bind_inr in H as (truck & Htruck & H).
    apply mapM_float_reads in Htruck.
    apply bind_inr in H as ([lim cost] & Htruck2 & H). simpl in H.
    apply unpack2_inr in Htruck2 as ->.
    apply bind_inr in H as (raw6 & Hraw6 & H).
    apply mapM_float_reads in Hraw6.
    destruct (fill raw6 C Fn A0) as [e|D] eqn:HD; [discriminate|].
    simpl in H.
    assert (HD' : (A0 <- zeros fzero C Fn ;; fill raw6 C Fn A0) = inr D)
      by (rewrite HA0; done).
    apply zeros_fill in HD' as (_ & _ & Hlen6 & ->).
    injection H as <-.
    split; simpl; eauto 10.
  - intros (text' & [= <-] & [Hdims [HC HFn] HA Hd Ho Hcap Hveh Htruck HD]).
    destruct inst as [C Fn A d o cap veh lim cost D]. simpl in *.
    destruct HA as (HA0 & HA1 & raw1 & Hraw1 & HAf & Hlen1).
    destruct HD as (HD0 & HD1 & raw6 & Hraw6 & HDf & Hlen6).
    apply mapM_int_reads in Hdims. rewrite Hdims. simpl.
    apply mapM_float_reads in Hraw1, Hd, Ho, Hcap, Htruck, Hraw6.
    pose proof (proj2 (zeros_fill raw1 C Fn _)
                  (conj HC (conj HFn (conj Hlen1 eq_refl)))) as H1.
    pose proof (proj2 (zeros_fill raw6 C Fn _)
                  (conj HC (conj HFn (conj Hlen6 eq_refl)))) as H6.
    destruct (zeros fzero C Fn) as [e|A0]; [discriminate|]. simpl in *.
    rewrite Hraw1. simpl. rewrite H1. simpl.
    rewrite Hd, Ho, Hcap, Htruck. simpl.
    rewrite Hraw6. simpl. rewrite H6. simpl.
    destruct A as [a0 a1 af], D as [d0 d1 df]. simpl in *.
    by subst.
Qed.


Lemma getLPInstance_Some fs fileName inst :
  (getLPInstance fzero py_int py_float fs fileName).2 = Some inst ↔
  ∃ text, fs fileName = Readable text
          ∧ populated_from py_int py_float text inst.
Proof.
  rewrite <- body_populated. unfold getLPInstance.
  destruct (body fs fileName) as [e|inst']; simpl;
    split; intros H; by simplify_eq.
Qed.
End ParserFacts.

(** ** Loops and comprehensions that do not raise, or raise *)

Lemma mapM_ret {A B} (g : A → result B) (h : A → B) (l : list A) :
  (∀ i, i ∈ l → g i = ret (h i)) → mapM g l = ret (map h l).
Proof.
  induction l as [|i l IH]; intros H; simpl; [done|].
  rewrite (H i) by left. simpl. rewrite IH; [done|].
  intros j Hj. apply H. by right.
Qed.

Lemma forM_add_cts {A} (body : A → M unit) (h : A → Constraint)
    (l : list A) :
  (∀ i m, i ∈ l → body i m = (add_cts [h i] m, ret tt)) →
  ∀ m, forM l body m = (add_cts (map h l) m, ret tt).
Proof.
  induction l as [|i l IH]; intros H m; simpl.
  - unfold retM, add_cts. simpl. rewrite app_nil_r. by destruct m.
  - unfold bindM. rewrite (H i m) by left. simpl.
    rewrite IH by (intros; apply H; by right).
    unfold add_cts. simpl. by rewrite <- app_assoc.
Qed.

Lemma extends_refl m : extends m m.
Proof. repeat split. exists []. by rewrite app_nil_r. Qed.

Lemma extends_trans m1 m2 m3 : extends m1 m2 → extends m2 m3 → extends m1 m3.
Proof.
  intros (Hv & Ho & more & Hc) (Hv' & Ho' & more' & Hc').
  repeat split; [congruence..|].
  exists (more ++ more'). rewrite Hc', Hc. by rewrite app_assoc.
Qed.

Lemma add_constraint_after {A} (r : result A) (k : A → Constraint)
    (name : A → option string) m :
  extends m (bindM (lift r) (λ a, add_constraint (k a) (name a)) m).1.
Proof.
  unfold bindM, lift. destruct r as [e|a]; simpl.
  - apply extends_refl.
  - repeat split. eauto.
Qed.

Lemma forM_extends {A} (body : A → M unit) (l : list A) :
  (∀ i m, extends m (body i m).1) → ∀ m, extends m (forM l body m).1.
Proof.
  intros H. induction l as [|i l IH]; intros m; simpl.
  - apply extends_refl.
  - unfold bindM. specialize (H i m).
    destruct (body i m) as [m' [e|[]]]; simpl in *; [done|].
    eapply extends_trans; [done|]. apply IH.
Qed.

Lemma forM_app {A} (body : A → M unit) (l1 l2 : list A) m :
  forM (l1 ++ l2) body m = bindM (forM l1 body) (λ _, forM l2 body) m.
Proof.
  revert m. induction l1 as [|i l1 IH]; intros m; simpl.
  - done.
  - unfold bindM. destruct (body i m) as [m' [e|[]]]; [done|].
    rewrite IH. done.
Qed.


(** ** Sums and scalar products *)


Lemma Qsum_map_ext {A} (g h : A → Q) (l : list A) :
  (∀ i, i ∈ l → (g i == h i)%Q) → (Qsum (map g l) == Qsum (map h l))%Q.
Proof.
  induction l as [|i l IH]; intros H; simpl; [done|].
  rewrite (H i) by left. rewrite IH; [done|]. intros; apply H; by right.
Qed.

Lemma big_ext n g h :
  (∀ i, (i < n)%nat → (g i == h i)%Q) → (big n g == big n h)%Q.
Proof.
  intros H. apply Qsum_map_ext. intros i Hi.
  apply elem_of_seq in Hi. apply H. lia.
Qed.

Lemma Qsum_map_plus {A} (g h : A → Q) (l : list A) :
  (Qsum (map (λ i, g i + h i) l) == Qsum (map g l) + Qsum (map h l))%Q.
Proof. induction l as [|i l IH]; simpl; [ring|]. rewrite IH. ring. Qed.


Lemma Qsum_map_le {A} (g h : A → Q) (l : list A) :
  (∀ i, i ∈ l → (g i <= h i)%Q) → (Qsum (map g l) <= Qsum (map h l))%Q.
Proof.
  induction l as [|i l IH]; intros H; simpl; [apply Qle_refl|].
  apply Qplus_le_compat; [apply H; by left|].
  apply IH. intros; apply H; by right.
Qed.


Lemma big_plus n g h : (big n (λ i, g i + h i) == big n g + big n h)%Q.
Proof. apply Qsum_map_plus. Qed.


Lemma big_le n g h :
  (∀ i, (i < n)%nat → (g i <= h i)%Q) → (big n g <= big n h)%Q.
Proof.
  intros H. apply Qsum_map_le. intros i Hi.
  apply elem_of_seq in Hi. apply H. lia.
Qed.



Lemma eval_foldl_plus a acc l :
  (eval a (foldl LPlus acc l) == eval a acc + Qsum (map (eval a) l))%Q.
Proof.
  revert acc. induction l as [|e l IH]; intros acc; simpl; [ring|].
  rewrite IH. simpl. ring.
Qed.

Lemma eval_sum a l : (eval a (sum l) == Qsum (map (eval a) l))%Q.
Proof. unfold sum. rewrite eval_foldl_plus. simpl. ring. Qed.

Lemma eval_sum_seq a n (t : nat → LinExpr) :
  (eval a (sum (map t (seq 0 n))) == big n (λ i, eval a (t i)))%Q.
Proof. rewrite eval_sum. unfold big. by rewrite map_map. Qed.

(** The scalar product of a run of variables with a list of the same
    length. *)
Lemma zip_with_seq {B} (g : nat → Q → B) n (coefs : list Q) :
  length coefs = n →
  zip_with g (seq 0 n) coefs = map (λ c, g c (at_ coefs c)) (seq 0 n).
Proof.
  intros Hlen. apply list_eq. intros i.
  rewrite lookup_zip_with, list_lookup_fmap.
  destruct (decide (i < n)%nat) as [Hi|Hi].
  - rewrite lookup_seq_lt by done. simpl.
    destruct (lookup_lt_is_Some_2 coefs i) as [q Hq]; [lia|].
    unfold at_. rewrite Hq. done.
  - rewrite lookup_seq_ge by lia. done.
Qed.

Lemma eval_scal_prod a (v : nat → Var) n (coefs : list Q) :
  length coefs = n →
  (eval a (scal_prod (map v (seq 0 n)) coefs)
   == big n (λ c, a (var_index (v c)) * at_ coefs c))%Q.
Proof.
  intros Hlen. unfold scal_prod.
  rewrite zip_with_fmap_l, (zip_with_seq _ n coefs Hlen).
  rewrite eval_sum_seq. apply big_ext. intros c _. simpl. ring.
Qed.

(** ** The stages of the formulation *)

Lemma list_getitem_map_seq {A} (g : nat → A) n i :
  (i < n)%nat → list_getitem (map g (seq 0 n)) i = ret (g i).
Proof.
  intros Hi. unfold list_getitem.
  change (map g (seq 0 n)) with (g <$> seq 0 n).
  rewrite list_lookup_fmap, lookup_seq_lt by done. done.
Qed.

(** Line 89 on a model that has [b] variables already. *)
Lemma var_lists (Cz : Z) (l : list nat) : ∀ m,
  mapMS (λ _, continuous_var_list Cz 0 1) l m
  = let rows := map (λ f, map (λ c, xvar (length (vars m)
                                          + f * Z.to_nat Cz + c))
                              (seq 0 (Z.to_nat Cz)))
                    (seq 0 (length l)) in
    (add_vars (concat rows) m, ret rows).
Proof.
  induction l as [|f0 l IH]; intros m; simpl.
  - unfold retM, add_vars. simpl. rewrite app_nil_r. by destruct m.
  - unfold bindM at 1. unfold continuous_var_list at 1. unfold range.
    cbv beta iota zeta. unfold bindM at 1. rewrite IH. simpl.
    unfold retM, add_vars. simpl. rewrite length_app, length_map, length_seq.
    rewrite <- seq_shift, !map_map.
    assert (Hrow : map (λ i, {| var_index := length (vars m) + i;
                              var_type := Continuous;
                              var_lb := 0; var_ub := 1 |})
                       (seq 0 (Z.to_nat Cz))
                   = map (λ c, xvar (length (vars m) + 0 + c))
                         (seq 0 (Z.to_nat Cz))).
    { apply map_ext. intros c. unfold xvar. f_equal. lia. }
    assert (Hrest : map (λ f, map (λ c, xvar (length (vars m) + Z.to_nat Cz
                                             + f * Z.to_nat Cz + c))
                                  (seq 0 (Z.to_nat Cz))) (seq 0 (length l))
                    = map (λ f, map (λ c, xvar (length (vars m)
                                               + S f * Z.to_nat Cz + c))
                                    (seq 0 (Z.to_nat Cz)))
                          (seq 0 (length l))).
    { apply map_ext. intros f. apply map_ext. intros c. f_equal. lia. }
    rewrite Hrow, Hrest. rewrite <- app_assoc. done.
Qed.

Section Stages.
Variable inst : LPInstance Q.

Local Abbreviation C := (nC inst).
Local Abbreviation Fn := (nF inst).
Local Abbreviation x := (x_vars inst).

Lemma stage_vars :
  mapMS (λ _, continuous_var_list (numCustomers inst) 0 1)
        (range (numFacilities inst)) new_model
  = (add_vars (concat x) new_model, ret x).
Proof.
  rewrite var_lists. simpl. unfold range. rewrite length_seq. done.
Qed.

Lemma x_getitem f : (f < Fn)%nat → list_getitem x f = ret (x_row inst f).
Proof. apply list_getitem_map_seq. Qed.

Lemma x_at_ret f c :
  (f < Fn)%nat → (c < C)%nat → x_at x f c = ret (xvar (f * C + c)).
Proof.
  intros Hf Hc. unfold x_at. rewrite x_getitem by done. simpl.
  unfold x_row. by rewrite list_getitem_map_seq.
Qed.

(** Lines 92-93 never raise. *)
Lemma stage_cover m :
  forM (range (numCustomers inst)) (demand_satisfied inst x) m
  = (add_cts (map (cover_ct inst) (seq 0 C)) m, ret tt).
Proof.
  apply forM_add_cts. intros c m' Hc. apply elem_of_seq in Hc.
  unfold demand_satisfied, bindM, lift.
  rewrite (mapM_ret _ (λ f, LVar (xvar (f * C + c)))).
  - done.
  - intros f Hf. apply elem_of_seq in Hf.
    rewrite x_at_ret by (unfold nC, nF in *; lia). done.
Qed.

Lemma getitem1_ret (l : list Q) i :
  (i < length l)%nat → getitem1 l i = ret (at_ l i).
Proof.
  intros Hi. unfold getitem1, at_.
  destruct (lookup_lt_is_Some_2 l i Hi) as [q ->]. done.
Qed.

(** Lines 94-98 with a capacity for every facility. *)
Lemma stage_capacity m :
  length (capacityF inst) = Fn →
  forM (range (numFacilities inst)) (facility_capacity inst x) m
  = (add_cts (map (capacity_ct inst) (seq 0 Fn)) m, ret tt).
Proof.
  intros Hcap. apply forM_add_cts. intros f m' Hf. apply elem_of_seq in Hf.
  unfold facility_capacity, bindM, lift.
  rewrite x_getitem by (unfold nF in *; lia). simpl.
  rewrite getitem1_ret by (unfold nF in *; lia). done.
Qed.

(** A column of a well-shaped array. *)
Lemma column_ret (A : ndarray2 Q) f :
  length (flat A) = (shape0 A * shape1 A)%nat → (f < shape1 A)%nat →
  column A f = ret (map (λ c, cell A c f) (seq 0 (shape0 A))).
Proof.
  intros Hlen Hf. unfold column.
  rewrite (proj2 (Nat.ltb_lt _ _) Hf). simpl.
  apply mapM_ret. intros c Hc. apply elem_of_seq in Hc.
  unfold list_getitem, cell, getitem2.
  rewrite (proj2 (Nat.ltb_lt c (shape0 A))) by lia.
  rewrite (proj2 (Nat.ltb_lt _ _) Hf). simpl.
  destruct (lookup_lt_is_Some_2 (flat A) (c * shape1 A + f)) as [q ->];
    [nia|done].
Qed.

Lemma distance_column_ret f :
  well_shaped (distanceCF inst) C Fn → (f < Fn)%nat →
  column (distanceCF inst) f = ret (distance_column inst f).
Proof.
  intros (H0 & H1 & Hlen) Hf.
  rewrite column_ret by (rewrite ?H0, ?H1; done).
  unfold distance_column. by rewrite H0.
Qed.

Lemma alloc_column_ret f :
  well_shaped (allocCostCF inst) C Fn → (f < Fn)%nat →
  column (allocCostCF inst) f = ret (alloc_column inst f).
Proof.
  intros (H0 & H1 & Hlen) Hf.
  rewrite column_ret by (rewrite ?H0, ?H1; done).
  unfold alloc_column. by rewrite H0.
Qed.

Lemma divide_ret e k :
  ¬ (k == 0)%Q → divide e k = ret (LTimes (/ k) e).
Proof.
  intros Hk. unfold divide.
  destruct (Qeq_bool k 0) eqn:E; [|done].
  apply Qeq_bool_iff in E. done.
Qed.


(** Lines 99-100 with a nonzero distance limit. *)
Lemma stage_truck m :
  well_shaped (distanceCF inst) C Fn → ¬ (truckDistLimit inst == 0)%Q →
  forM (range (numFacilities inst)) (max_truck inst x) m
  = (add_cts (map (truck_ct inst) (seq 0 Fn)) m, ret tt).
Proof.
  intros Hcons Hlim. apply forM_add_cts. intros f m' Hf.
  apply elem_of_seq in Hf.
  unfold max_truck, bindM, lift.
  rewrite x_getitem by (unfold nF in *; lia). simpl.
  rewrite distance_column_ret by (done || (unfold nF in *; lia)). simpl.
  rewrite divide_ret by done. done.
Qed.

End Stages.

(** ** The outline of the formulation *)

Section Outline.
Variable inst : LPInstance Q.
Hypothesis Hcap : length (capacityF inst) = nF inst.

Local Abbreviation C := (nC inst).
Local Abbreviation Fn := (nF inst).
Local Abbreviation x := (x_vars inst).

Local Abbreviation after_capacity := (after_capacity inst).
Local Abbreviation built := (built inst).

Lemma formulate_stages :
  formulate inst new_model
  = bindM (forM (range (numFacilities inst)) (max_truck inst x))
          (λ _, bindM (lift (total_cost inst x)) minimize)
          after_capacity.
Proof using Hcap.
  unfold formulate. unfold bindM at 1. rewrite stage_vars.
  unfold ret at 1. unfold bindM at 1. rewrite stage_cover.
  unfold ret at 1. unfold bindM at 1.
  rewrite stage_capacity by apply Hcap.
  unfold ret at 1. unfold add_cts, add_vars, after_capacity. simpl.
  done.
Qed.


(** With a nonzero distance limit all three families are added, whatever
    the objective does afterwards. *)
Lemma formulate_constraints :
  well_shaped (distanceCF inst) C Fn → ¬ (truckDistLimit inst == 0)%Q →
  constraints (formulate inst new_model).1 = constraints built.
Proof using Hcap.
  intros Hdist Hlim. rewrite formulate_stages. unfold bindM at 1.
  rewrite stage_truck by done. unfold ret at 1. unfold bindM, lift.
  destruct (total_cost inst x) as [e|cost]; simpl;
    by rewrite <- app_assoc.
Qed.
End Outline.

(** ** The objective and the whole formulation *)

Section Formulate.
Variable inst : LPInstance Q.
Hypothesis Hcons : consistent inst.

Local Abbreviation C := (nC inst).
Local Abbreviation Fn := (nF inst).
Local Abbreviation x := (x_vars inst).

Lemma opening_cost_cases f :
  (f < Fn)%nat →
  opening_cost inst x f
  = if Qeq_bool (at_ (capacityF inst) f) 0
    then raise (DOcplexException "Zero divide")
    else ret (opening_term inst f).
Proof using Hcons.
  intros Hf. unfold opening_cost.
  rewrite getitem1_ret by (rewrite (cons_opening _ Hcons); done). simpl.
  rewrite x_getitem by done. simpl.
  rewrite getitem1_ret by (rewrite (cons_capacity _ Hcons); done). simpl.
  unfold divide. by destruct (Qeq_bool _ _).
Qed.

Lemma allocation_cost_ret f :
  (f < Fn)%nat → allocation_cost inst x f = ret (alloc_term inst f).
Proof using Hcons.
  intros Hf. unfold allocation_cost.
  rewrite x_getitem by done. simpl.
  rewrite alloc_column_ret by (done || apply Hcons). done.
Qed.

Lemma truck_usage_cost_cases f :
  (f < Fn)%nat →
  truck_usage_cost inst x f
  = if Qeq_bool (truckDistLimit inst) 0
    then raise (DOcplexException "Zero divide")
    else ret (truck_term inst f).
Proof using Hcons.
  intros Hf. unfold truck_usage_cost.
  rewrite x_getitem by done. simpl.
  rewrite distance_column_ret by (done || apply Hcons). simpl.
  unfold divide. by destruct (Qeq_bool _ _).
Qed.

Lemma total_cost_ret :
  nondegenerate inst → total_cost inst x = ret (cost_expr inst).
Proof using Hcons.
  intros [Hlim Hcap]. unfold total_cost, range. fold Fn.
  rewrite (mapM_ret _ (opening_term inst)); last first.
  { intros f Hf. apply elem_of_seq in Hf.
    rewrite opening_cost_cases by lia.
    destruct (Qeq_bool _ _) eqn:E; [|done].
    apply Qeq_bool_iff in E. destruct (Hcap f); [lia|done]. }
  simpl. rewrite (mapM_ret _ (alloc_term inst)); last first.
  { intros f Hf. apply elem_of_seq in Hf.
    apply allocation_cost_ret. lia. }
  simpl. rewrite (mapM_ret _ (truck_term inst)); last first.
  { intros f Hf. apply elem_of_seq in Hf.
    rewrite truck_usage_cost_cases by lia.
    destruct (Qeq_bool _ _) eqn:E; [|done].
    apply Qeq_bool_iff in E. done. }
  done.
Qed.

Lemma formulate_complete :
  nondegenerate inst → formulate inst new_model = (built inst, ret tt).
Proof using Hcons.
  intros Hnd. rewrite formulate_stages by apply Hcons.
  unfold bindM at 1.
  rewrite stage_truck by (apply Hcons || apply Hnd).
  unfold ret at 1. unfold bindM, lift. rewrite total_cost_ret by done.
  unfold minimize, built, add_cts, after_capacity. simpl.
  by rewrite <- app_assoc.
Qed.

End Formulate.

(** The variables are declared first, and nothing later touches them:
    this holds for every instance, also when a later line raises. *)
Lemma formulate_vars (inst : LPInstance Q) :
  vars (formulate inst new_model).1 = concat (x_vars inst).
Proof.
  unfold formulate. unfold bindM at 1. rewrite stage_vars.
  unfold ret at 1. unfold bindM at 1. rewrite stage_cover.
  unfold ret at 1. unfold bindM, lift.
  set (m2 := add_cts _ (add_vars _ new_model)).
  assert (Hm2 : vars m2 = concat (x_vars inst)) by done.
  pose proof (forM_extends (facility_capacity inst (x_vars inst))
                (range (numFacilities inst))
                (λ f m, add_constraint_after _ _ _ m) m2) as (Hv3 & _).
  destruct (forM _ (facility_capacity _ _) m2) as [m3 [e|[]]]; simpl in *;
    [congruence|].
  pose proof (forM_extends (max_truck inst (x_vars inst))
                (range (numFacilities inst))
                (λ f m, add_constraint_after _ _ _ m) m3) as (Hv4 & _).
  destruct (forM _ (max_truck _ _) m3) as [m4 [e|[]]]; simpl in *;
    [congruence|].
  destruct (total_cost inst (x_vars inst)) as [e|cost]; simpl; congruence.
Qed.

(** ** What the constraints and the objective mean *)

Section Meaning.
Variable inst : LPInstance Q.
Variable a : nat → Q.

Local Abbreviation C := (nC inst).
Local Abbreviation Fn := (nF inst).

Lemma at_map_seq (g : nat → Q) n c :
  (c < n)%nat → at_ (map g (seq 0 n)) c = g c.
Proof.
  intros Hc. unfold at_.
  change (map g (seq 0 n)) with (g <$> seq 0 n).
  rewrite list_lookup_fmap, lookup_seq_lt by done. done.
Qed.

Lemma eval_cover c :
  (eval a (ct_lhs (cover_ct inst c)) == big Fn (λ f, x_val inst a f c))%Q.
Proof. unfold cover_ct. simpl. by rewrite eval_sum_seq. Qed.

Lemma eval_row (coefs : list Q) f :
  length coefs = C →
  (eval a (scal_prod (x_row inst f) coefs)
   == big C (λ c, x_val inst a f c * at_ coefs c))%Q.
Proof. intros Hlen. unfold x_row. by rewrite eval_scal_prod. Qed.

Lemma eval_row_column (g : nat → Q) f :
  (eval a (scal_prod (x_row inst f) (map g (seq 0 C)))
   == big C (λ c, x_val inst a f c * g c))%Q.
Proof.
  rewrite eval_row by (by rewrite length_map, length_seq).
  apply big_ext. intros c Hc. by rewrite at_map_seq.
Qed.

Lemma eval_truck f :
  (eval a (ct_lhs (truck_ct inst f))
   == big C (λ c, x_val inst a f c * cell (distanceCF inst) c f)
      / truckDistLimit inst)%Q.
Proof.
  simpl. unfold distance_column. rewrite eval_row_column.
  unfold Qdiv. ring.
Qed.

Lemma eval_cost :
  length (demandC inst) = C →
  (eval a (cost_expr inst) == spec_objective inst a)%Q.
Proof.
  intros Hlen. unfold cost_expr, spec_objective. simpl.
  rewrite !eval_sum_seq, <- !big_plus. apply big_ext. intros f Hf.
  unfold opening_term, alloc_term, truck_term, alloc_column,
    distance_column. simpl.
  rewrite !eval_row_column, eval_row by done.
  unfold Qdiv. ring.
Qed.
End Meaning.

(** ** The parser: shape, round trip and error policy *)

Section ParserClaims.
Context {F : Type} (fzero : F).
Variable py_int : string → option Z.
Variable py_float : string → option F.

Lemma take_cells (toks : list string) (vs : list F) (A : ndarray2 F) r c :
  reads py_float toks vs → length toks = (r * c)%nat →
  shape0 A = r → shape1 A = c → flat A = take (r * c) vs →
  matrix_of_line py_float toks A r c.
Proof.
  intros Hreads Hlen H0 H1 Hflat.
  pose proof (reads_length _ _ _ Hreads) as Hlen'.
  assert (Hvs : flat A = vs).
  { rewrite Hflat. apply take_ge. lia. }
  unfold matrix_of_line. rewrite Hvs. split_and!; try done.
  intros i j Hi Hj.
  destruct (lookup_lt_is_Some_2 vs (i * c + j)) as [v Hv]; [nia|].
  destruct (reads_lookup _ _ _ _ _ Hreads Hv) as (t & Ht & Hr).
  exists t, v. split_and!; try done.
  unfold getitem2. rewrite H0, H1, Hvs.
  rewrite (proj2 (Nat.ltb_lt i r)), (proj2 (Nat.ltb_lt j c)) by done.
  done.
Qed.


Lemma accepted_populated text :
  accepted py_int py_float text →
  ∃ inst, populated_from py_int py_float text inst.
Proof.
  intros [(C & Fn & Hdims & HC & HFn & Hlen1 & Hlen6)
            [vs1 Hvs1] [d Hd] [o Ho] [cap Hcap]
            [[truck Htruck] Hlen5] [vs6 Hvs6]].
  rewrite (reads_length _ _ _ Htruck) in Hlen5.
  destruct truck as [|lim [|cost [|? ?]]]; try discriminate.
  rewrite (reads_length _ _ _ Hvs1) in Hlen1.
  rewrite (reads_length _ _ _ Hvs6) in Hlen6.
  exists {| numCustomers := C; numFacilities := Fn;
            allocCostCF := {| shape0 := Z.to_nat C; shape1 := Z.to_nat Fn;
                              flat := take (Z.to_nat C * Z.to_nat Fn) vs1 |};
            demandC := d; openingCostF := o; capacityF := cap;
            numMaxVehiclePerFacility := C;
            truckDistLimit := lim; truckUsageCost := cost;
            distanceCF := {| shape0 := Z.to_nat C; shape1 := Z.to_nat Fn;
                             flat := take (Z.to_nat C * Z.to_nat Fn) vs6 |}
         |}.
  split; simpl; eauto 10.
Qed.

(** C3. For a readable file in the format of the specification that
    declares C customers and Fn facilities, the parser returns an
    instance with these dimensions whose allocation-cost and distance
    matrices have shape C by Fn, hold at (c, f) the value of token
    c * Fn + f of lines 2 and 7, and read row after row give the
    values of all the tokens of these lines in order. *)
Theorem C3_matrices_round_trip fs fileName text C Fn :
  fs fileName = Readable text →
  well_formed py_int py_float text C Fn →
  ∃ inst,
    getLPInstance fzero py_int py_float fs fileName = ([], Some inst)
    ∧ numCustomers inst = C ∧ numFacilities inst = Fn
    ∧ matrix_of_line py_float (tokens text 1) (allocCostCF inst)
        (Z.to_nat C) (Z.to_nat Fn)
    ∧ matrix_of_line py_float (tokens text 6) (distanceCF inst)
        (Z.to_nat C) (Z.to_nat Fn).
Proof.
  intros Hfs [Hdims Hnn [Hn1 Hl1] [Hn2 _] [Hn3 _] [Hn4 _] [Hn5 Hl5]
                [Hn6 Hl6]].
  destruct (accepted_populated text) as [inst Hpop].
  { split; try done.
    exists C, Fn. rewrite Hl1, Hl6. destruct Hnn. done. }
  exists inst.
  assert (Hbody : getLPInstance_body fzero py_int py_float fs fileName
                  = inr inst).
  { apply body_populated. eauto. }
  unfold getLPInstance. rewrite Hbody. split; [done|].
  destruct Hpop as [Hdims' _ HA _ _ _ _ _ HD].
  pose proof (reads_inj _ _ _ _ Hdims Hdims') as [= -> ->].
  destruct HA as (HA0 & HA1 & vs1 & Hvs1 & HAf & _).
  destruct HD as (HD0 & HD1 & vs6 & Hvs6 & HDf & _).
  repeat split; try done; by eapply take_cells.
Qed.



(** C8. In every instance the parser returns, the vehicle cap is the
    number of customers, which is the value of the first token of line 1;
    no other token of the file enters it. *)
Theorem C8_vehicles_are_customers fs fileName inst :
  parsed fzero py_int py_float fs fileName inst →
  numMaxVehiclePerFacility inst = numCustomers inst
  ∧ ∃ text t1 t2, fs fileName = Readable text
                  ∧ tokens text 0 = [t1; t2]
                  ∧ py_int t1 = Some (numMaxVehiclePerFacility inst).
Proof.
  intros Hp. apply getLPInstance_Some in Hp as (text & Hfs & Hpop).
  destruct Hpop as [Hdims _ _ _ _ _ Hveh _ _].
  split; [done|]. exists text.
  unfold reads in Hdims.
  apply Forall2_cons_inv_r in Hdims as (t1 & l1 & H1 & Hdims & Heq).
  apply Forall2_cons_inv_r in Hdims as (t2 & l2 & H2 & Hdims & ->).
  apply Forall2_nil_inv_r in Hdims as ->.
  exists t1, t2. rewrite Hveh. done.
Qed.
End ParserClaims.

(** ** From the parser to the solver object *)

Section SolverFacts.
Variable py_int : string → option Z.
Variable py_float : string → option Q.
Variable cplex : Model → option Q.

Local Abbreviation init := (LPSolver_init py_int py_float).

Lemma init_parsed fs fileName inst :
  parsed 0%Q py_int py_float fs fileName inst →
  (init fs fileName).2 = {| lpinst := Some inst; model := new_model |}.
Proof.
  unfold parsed, LPSolver_init.
  destruct (getLPInstance _ _ _ _ _) as [out r]. simpl. by intros ->.
Qed.

Lemma solve_formulate (self : LPSolver) inst :
  lpinst self = Some inst →
  solve cplex self
  = let r := formulate inst (model self) in
    match r.2 with
    | inl e => (r.1, raise e)
    | inr _ => (r.1, ret (match cplex r.1 with
                          | Some objective_value => PyFloat objective_value
                          | None => PyInt (-1)
                          end))
    end.
Proof.
  intros Hinst. unfold solve. rewrite Hinst.
  destruct (formulate inst (model self)) as [m [e|[]]]; simpl; [done|].
  by destruct (cplex m).
Qed.

Lemma solve_model (self : LPSolver) inst :
  lpinst self = Some inst →
  (solve cplex self).1 = (formulate inst (model self)).1.
Proof.
  intros Hinst. rewrite (solve_formulate _ _ Hinst). simpl.
  by destruct (formulate inst (model self)).2.
Qed.

Lemma parsed_shapes fs fileName inst :
  parsed 0%Q py_int py_float fs fileName inst →
  (0 ≤ numCustomers inst)%Z ∧ (0 ≤ numFacilities inst)%Z
  ∧ well_shaped (allocCostCF inst) (nC inst) (nF inst)
  ∧ well_shaped (distanceCF inst) (nC inst) (nF inst).
Proof.
  intros Hp. apply getLPInstance_Some in Hp as (text & _ & Hpop).
  destruct Hpop as [_ [HC HFn] HA _ _ _ _ _ HD].
  destruct HA as (HA0 & HA1 & vs1 & _ & HAf & Hlen1).
  destruct HD as (HD0 & HD1 & vs6 & _ & HDf & Hlen6).
  unfold well_shaped, nC, nF. split_and!; try done.
  - rewrite HAf. by apply length_take_le.
  - rewrite HDf. by apply length_take_le.
Qed.

Lemma parsed_consistent fs fileName inst :
  parsed 0%Q py_int py_float fs fileName inst →
  length (demandC inst) = nC inst →
  length (openingCostF inst) = nF inst →
  length (capacityF inst) = nF inst →
  consistent inst.
Proof.
  intros Hp Hd Ho Hcap.
  destruct (parsed_shapes _ _ _ Hp) as (_ & _ & HA & HD). by split.
Qed.
(** A file in the format of the specification gives a consistent
    instance. *)
Lemma well_formed_consistent fs fileName text C Fn inst :
  fs fileName = Readable text →
  well_formed py_int py_float text C Fn →
  parsed 0%Q py_int py_float fs fileName inst →
  numCustomers inst = C ∧ numFacilities inst = Fn ∧ consistent inst.
Proof.
  intros Hfs [Hdims _ _ [_ Hl2] [_ Hl3] [_ Hl4] _ _] Hp.
  pose proof Hp as Hp'.
  apply getLPInstance_Some in Hp' as (text' & Hfs' & Hpop).
  rewrite Hfs in Hfs'. injection Hfs' as <-.
  destruct Hpop as [Hdims' _ _ Hd Ho Hcap _ _ _].
  pose proof (reads_inj _ _ _ _ Hdims Hdims') as [= -> ->].
  split_and!; try done.
  apply (parsed_consistent _ _ _ Hp); unfold nC, nF.
  - by rewrite <- (reads_length _ _ _ Hd).
  - by rewrite <- (reads_length _ _ _ Ho).
  - by rewrite <- (reads_length _ _ _ Hcap).
Qed.
End SolverFacts.

(** ** The variables and the constraint families *)

Lemma concat_x_vars (inst : LPInstance Q) :
  concat (x_vars inst) = map xvar (seq 0 (nF inst * nC inst)).
Proof.
  unfold x_vars, x_row. generalize (nC inst) as C. intros C.
  induction (nF inst) as [|n IH]; [done|].
  replace (S n * C)%nat with (n * C + C)%nat by lia.
  rewrite seq_S, map_app, concat_app, IH, seq_app, map_app.
  f_equal. cbn [map concat Nat.add]. rewrite app_nil_r.
  assert (Hseq : seq (n * C) C = Nat.add (n * C) <$> seq 0 C).
  { rewrite fmap_add_seq. f_equal. lia. }
  rewrite Hseq. unfold fmap. by rewrite <- list_fmap_compose.
Qed.

Lemma family_map_seq (g : nat → Constraint) n sense rhs lhs :
  (∀ i, (i < n)%nat →
     ct_sense (g i) = sense ∧ (ct_rhs (g i) == rhs i)%Q
     ∧ ∀ a, (eval a (ct_lhs (g i)) == lhs a i)%Q) →
  family (map g (seq 0 n)) n sense rhs lhs.
Proof.
  intros H. split; [by rewrite length_map, length_seq|].
  intros i ct Hct.
  change (map g (seq 0 n)) with (g <$> seq 0 n) in Hct.
  apply list_lookup_fmap_Some in Hct as (j & -> & Hj).
  apply lookup_seq in Hj as [-> Hlt]. by apply H.
Qed.

Lemma Forall_map_seq {A} (P : A → Prop) (g : nat → A) n :
  Forall P (map g (seq 0 n)) ↔ ∀ i, (i < n)%nat → P (g i).
Proof.
  change (map g (seq 0 n)) with (g <$> seq 0 n).
  rewrite Forall_fmap, Forall_forall. split.
  - intros H i Hi. apply (H i). apply elem_of_seq. lia.
  - intros H i Hi. apply elem_of_seq in Hi. apply H. lia.
Qed.

(** ** Lines with more or fewer values than the dimensions call for

    [scal_prod] pairs the variables of a row with the coefficients as far
    as both reach, and an index reads an array wherever it has a value:
    values after those that the dimensions call for play no part, and a
    customer without a demand has no term. *)

Lemma Qsum_map_zero {A} (g : A → Q) (l : list A) :
  (∀ i, i ∈ l → (g i == 0)%Q) → (Qsum (map g l) == 0)%Q.
Proof.
  induction l as [|i l IH]; intros H; simpl; [done|].
  rewrite (H i) by left. rewrite IH; [ring|]. intros; apply H; by right.
Qed.

Lemma at_past (l : list Q) i : (length l ≤ i)%nat → at_ l i = 0%Q.
Proof. intros Hi. unfold at_. by rewrite lookup_ge_None_2. Qed.

Lemma at_lookup (l : list Q) i v : l !! i = Some v → at_ l i = v.
Proof. intros H. unfold at_. by rewrite H. Qed.

Lemma Qsum_zip_seq a (v : nat → Var) n : ∀ s coefs,
  (Qsum (map (eval a)
           (zip_with (λ y k, LTimes k (LVar y)) (map v (seq s n)) coefs))
   == Qsum (map (λ c, a (var_index (v c)) * at_ coefs (c - s)) (seq s n)))%Q.
Proof.
  induction n as [|n IH]; intros s coefs; [done|].
  destruct coefs as [|k coefs].
  - simpl zip_with. symmetry. apply Qsum_map_zero. intros c _.
    rewrite at_past by (simpl; lia). ring.
  - cbn [seq map zip_with Qsum foldr eval].
    fold (Qsum (map (eval a)
                  (zip_with (λ y k, LTimes k (LVar y)) (map v (seq (S s) n))
                     coefs))).
    fold (Qsum (map (λ c, a (var_index (v c)) * at_ (k :: coefs) (c - s))%Q
                  (seq (S s) n))).
    rewrite IH, Nat.sub_diag.
    rewrite (Qsum_map_ext
               (λ c, a (var_index (v c)) * at_ (k :: coefs) (c - s))%Q
               (λ c, a (var_index (v c)) * at_ coefs (c - S s))%Q).
    + unfold at_ at 2. simpl. ring.
    + intros c Hc. apply elem_of_seq in Hc.
      replace (c - s)%nat with (S (c - S s)) by lia. done.
Qed.

Lemma eval_scal_prod_any a (v : nat → Var) n (coefs : list Q) :
  (eval a (scal_prod (map v (seq 0 n)) coefs)
   == big n (λ c, a (var_index (v c)) * at_ coefs c))%Q.
Proof.
  unfold scal_prod. rewrite eval_sum, Qsum_zip_seq. unfold big.
  apply Qsum_map_ext. intros c _. by rewrite Nat.sub_0_r.
Qed.


Section AnyDemand.
Variable inst : LPInstance Q.
Variable a : nat → Q.

Lemma eval_row_any (coefs : list Q) f :
  (eval a (scal_prod (x_row inst f) coefs)
   == big (nC inst) (λ c, x_val inst a f c * at_ coefs c))%Q.
Proof. unfold x_row. by rewrite eval_scal_prod_any. Qed.

Lemma eval_cost_any :
  (eval a (cost_expr inst) == spec_objective inst a)%Q.
Proof.
  unfold cost_expr, spec_objective. simpl.
  rewrite !eval_sum_seq, <- !big_plus. apply big_ext. intros f Hf.
  unfold opening_term, alloc_term, truck_term, alloc_column,
    distance_column. simpl.
  rewrite !eval_row_column, eval_row_any.
  unfold Qdiv. ring.
Qed.

Lemma built_families : three_families inst (built inst).
Proof.
  exists (map (cover_ct inst) (seq 0 (nC inst))),
         (map (capacity_ct inst) (seq 0 (nF inst))),
         (map (truck_ct inst) (seq 0 (nF inst))).
  split_and!; [done|..]; apply family_map_seq; intros i Hi;
    split_and!; try done; intros a'.
  - apply eval_cover.
  - simpl. apply eval_scal_prod_any.
  - apply eval_truck.
Qed.

Lemma built_conditions :
  Forall (satisfies a) (constraints (built inst)) ↔
  demand_covered inst a ∧ capacity_respected inst a
  ∧ truck_cap_respected inst a.
Proof.
  simpl. rewrite !Forall_app, !Forall_map_seq.
  unfold demand_covered, capacity_respected, truck_cap_respected.
  unfold satisfies. simpl.
  split.
  - intros (Hcov & Hcap & Htr). split_and!; intros i Hi.
    + rewrite <- (eval_cover inst a i). by apply Hcov.
    + rewrite <- (eval_row_any _ i). by apply Hcap.
    + rewrite <- (eval_truck inst a i). by apply Htr.
  - intros (Hcov & Hcap & Htr). split_and!; intros i Hi.
    + rewrite (eval_cover inst a i). by apply Hcov.
    + rewrite (eval_row_any _ i). by apply Hcap.
    + pose proof (eval_truck inst a i) as E. simpl in E. rewrite E.
      by apply Htr.
Qed.

End AnyDemand.

Section AnyLength.
Variable inst : LPInstance Q.
Hypothesis Hdist : well_shaped (distanceCF inst) (nC inst) (nF inst).

Local Abbreviation C := (nC inst).
Local Abbreviation Fn := (nF inst).
Local Abbreviation x := (x_vars inst).

(** Lines 89-98 when line 5 has [k] capacities for more facilities:
    the index of the first facility without one is out of bounds. *)
Lemma formulate_missing_capacity :
  (length (capacityF inst) < Fn)%nat →
  formulate inst new_model
  = ({| vars := concat x;
        constraints := map (cover_ct inst) (seq 0 C)
                       ++ map (capacity_ct inst)
                            (seq 0 (length (capacityF inst)));
        objective := None |},
     raise (out_of_bounds (length (capacityF inst)) 0
              (length (capacityF inst)))).
Proof.
  set (k := length (capacityF inst)). intros Hk.
  unfold formulate. unfold bindM at 1. rewrite stage_vars.
  unfold ret at 1. unfold bindM at 1. rewrite stage_cover.
  unfold ret at 1. unfold bindM at 1. unfold range. fold Fn.
  replace Fn with (k + (Fn - k))%nat at 1 by lia.
  rewrite seq_app, forM_app. unfold bindM at 1.
  rewrite (forM_add_cts _ (capacity_ct inst)); last first.
  { intros f m' Hf. apply elem_of_seq in Hf.
    unfold facility_capacity, bindM, lift.
    rewrite x_getitem by lia. simpl.
    rewrite getitem1_ret by (fold k; lia). done. }
  unfold ret at 1. simpl.
  destruct (Fn - k)%nat as [|n] eqn:Hn; [lia|]. simpl.
  unfold bindM at 1. unfold facility_capacity at 1. unfold bindM, lift.
  rewrite x_getitem by lia. simpl.
  unfold getitem1. rewrite (lookup_ge_None_2 (capacityF inst) k) by done.
  simpl. unfold add_cts, add_vars. simpl. done.
Qed.

Lemma stage_truck_any m :
  ((0 < Fn)%nat → ¬ (truckDistLimit inst == 0)%Q) →
  forM (range (numFacilities inst)) (max_truck inst x) m
  = (add_cts (map (truck_ct inst) (seq 0 Fn)) m, ret tt).
Proof using Hdist.
  intros Hlim. apply forM_add_cts. intros f m' Hf.
  apply elem_of_seq in Hf.
  unfold max_truck, bindM, lift.
  rewrite x_getitem by (unfold nF in *; lia). simpl.
  rewrite distance_column_ret by (done || (unfold nF in *; lia)). simpl.
  rewrite divide_ret by (apply Hlim; unfold nF in *; lia). done.
Qed.

Hypothesis Hcap : (Fn ≤ length (capacityF inst))%nat.

Lemma stage_capacity_any m :
  forM (range (numFacilities inst)) (facility_capacity inst x) m
  = (add_cts (map (capacity_ct inst) (seq 0 Fn)) m, ret tt).
Proof using Hcap.
  apply forM_add_cts. intros f m' Hf. apply elem_of_seq in Hf.
  unfold facility_capacity, bindM, lift.
  rewrite x_getitem by (unfold nF in *; lia). simpl.
  rewrite getitem1_ret by (unfold nF in *; lia). done.
Qed.

Lemma formulate_from_capacity :
  formulate inst new_model
  = bindM (forM (range (numFacilities inst)) (max_truck inst x))
          (λ _, bindM (lift (total_cost inst x)) minimize)
          (after_capacity inst).
Proof using Hcap.
  unfold formulate. unfold bindM at 1. rewrite stage_vars.
  unfold ret at 1. unfold bindM at 1. rewrite stage_cover.
  unfold ret at 1. unfold bindM at 1.
  rewrite stage_capacity_any.
  unfold ret at 1. unfold add_cts, add_vars, after_capacity. simpl.
  done.
Qed.


(** With a nonzero distance limit, or without facility, the truck
    constraints are added, and the objective comes next. *)
Lemma formulate_from_truck :
  ((0 < Fn)%nat → ¬ (truckDistLimit inst == 0)%Q) →
  formulate inst new_model
  = bindM (lift (total_cost inst x)) minimize
      {| vars := concat x; constraints := constraints (built inst);
         objective := None |}.
Proof using Hcap Hdist.
  intros Hlim. rewrite formulate_from_capacity. unfold bindM at 1.
  rewrite stage_truck_any by done. unfold ret at 1.
  unfold add_cts, after_capacity. simpl. by rewrite <- app_assoc.
Qed.

Lemma formulate_all_constraints :
  ((0 < Fn)%nat → ¬ (truckDistLimit inst == 0)%Q) →
  constraints (formulate inst new_model).1 = constraints (built inst).
Proof using Hcap Hdist.
  intros Hlim. rewrite formulate_from_truck by done. unfold bindM, lift.
  by destruct (total_cost inst x) as [e|cost].
Qed.

(** A term of the opening cost: the opening cost is read first, then the
    capacity, and the division comes last. *)
Lemma opening_cost_any f :
  (f < Fn)%nat →
  opening_cost inst x f
  = match openingCostF inst !! f with
    | None => raise (out_of_bounds f 0 (length (openingCostF inst)))
    | Some oc =>
        if Qeq_bool (at_ (capacityF inst) f) 0
        then raise (DOcplexException "Zero divide")
        else ret (opening_term inst f)
    end.
Proof using Hcap.
  intros Hf. unfold opening_cost, getitem1 at 1.
  destruct (openingCostF inst !! f) as [oc|] eqn:Hoc; [|done]. simpl.
  rewrite x_getitem by done. simpl.
  rewrite getitem1_ret by lia. simpl.
  unfold divide, opening_term, times. rewrite (at_lookup _ _ _ Hoc).
  by destruct (Qeq_bool _ _).
Qed.



Hypothesis Hopen : (Fn ≤ length (openingCostF inst))%nat.
Hypothesis Halloc : well_shaped (allocCostCF inst) (nC inst) (nF inst).

Lemma total_cost_any :
  nondegenerate inst → total_cost inst x = ret (cost_expr inst).
Proof using Hcap Hdist Hopen Halloc.
  intros [Hlim Hnz]. unfold total_cost, range. fold Fn.
  rewrite (mapM_ret _ (opening_term inst)); last first.
  { intros f Hf. apply elem_of_seq in Hf.
    rewrite opening_cost_any by lia.
    destruct (lookup_lt_is_Some_2 (openingCostF inst) f) as [oc ->]; [lia|].
    destruct (Qeq_bool _ _) eqn:E; [|done].
    apply Qeq_bool_iff in E. destruct (Hnz f); [lia|done]. }
  simpl. rewrite (mapM_ret _ (alloc_term inst)); last first.
  { intros f Hf. apply elem_of_seq in Hf.
    unfold allocation_cost. rewrite x_getitem by lia. simpl.
    rewrite alloc_column_ret by (done || lia). done. }
  simpl. rewrite (mapM_ret _ (truck_term inst)); last first.
  { intros f Hf. apply elem_of_seq in Hf.
    unfold truck_usage_cost. rewrite x_getitem by lia. simpl.
    rewrite distance_column_ret by (done || lia). simpl.
    rewrite divide_ret by done. done. }
  done.
Qed.

Lemma formulate_built :
  nondegenerate inst → formulate inst new_model = (built inst, ret tt).
Proof using Hcap Hdist Hopen Halloc.
  intros Hnd. rewrite formulate_from_truck by (intros _; apply Hnd).
  unfold bindM, lift. by rewrite total_cost_any.
Qed.
End AnyLength.

(** Nonzero divisors, with a capacity for every facility. *)
Lemma divisors_nondegenerate (inst : LPInstance Q) :
  (nF inst ≤ length (capacityF inst))%nat →
  divisors_nonzero inst → nondegenerate inst.
Proof.
  intros Hcap [Hlim Hall]. split; [done|]. intros f Hf.
  destruct (lookup_lt_is_Some_2 (capacityF inst) f) as [v Hv]; [lia|].
  rewrite (at_lookup _ _ _ Hv).
  by apply (Forall_lookup_1 _ _ _ _ Hall Hv).
Qed.

(** ** The formulation: variables, constraints, objective, result *)


Section SolverClaims.
Variable py_int : string → option Z.
Variable py_float : string → option Q.
Variable cplex : Model → option Q.

Local Abbreviation init := (LPSolver_init py_int py_float).
Local Abbreviation parsed_ := (parsed 0%Q py_int py_float).

(** C9. For every instance the parser returns, the model of [solve]
    has numFacilities * numCustomers variables; the variable x[f][c] is
    number f * numCustomers + c, and every variable is continuous with
    lower bound 0 and upper bound 1. *)
Theorem C9_decision_variables fs fileName inst :
  parsed_ fs fileName inst →
  declares_x inst (solve cplex (init fs fileName).2).1.
Proof.
  intros Hp. rewrite (init_parsed _ _ _ _ _ Hp).
  rewrite (solve_model cplex (Build_LPSolver (Some inst) new_model) inst eq_refl). simpl.
  unfold declares_x. rewrite formulate_vars, concat_x_vars.
  destruct (parsed_shapes _ _ _ _ _ Hp) as (HC & HF & _).
  split_and!.
  - rewrite length_map, length_seq. unfold nF, nC. lia.
  - intros f c Hf Hc.
    change (map xvar ?l) with (xvar <$> l).
    rewrite list_lookup_fmap, lookup_seq_lt by nia. done.
  - apply Forall_map_seq. done.
Qed.

(** C1 (amended). For every instance the parser returns that has a
    capacity for each of its facilities and, when it has a facility, a
    nonzero distance limit, the constraints of the model of [solve] are,
    in order: for each customer c, sum over f of x[f][c] equal to 1; for
    each facility f, sum over c of x[f][c] * demand[c] at most
    capacity[f]; for each facility f, sum over c of x[f][c] *
    distance[c][f], divided by the distance limit, at most the vehicle
    cap; and there is no other constraint.  A customer without a value on
    the demand line has no term in the second family, and values after
    those of the customers and of the facilities play no part. *)
Theorem C1_constraint_families fs fileName inst :
  parsed_ fs fileName inst →
  (nF inst ≤ length (capacityF inst))%nat →
  ((0 < nF inst)%nat → ¬ (truckDistLimit inst == 0)%Q) →
  constraints_as_specified inst (solve cplex (init fs fileName).2).1.
Proof.
  intros Hp Hcap Hlim. rewrite (init_parsed _ _ _ _ _ Hp).
  rewrite (solve_model cplex (Build_LPSolver (Some inst) new_model) inst
             eq_refl). simpl.
  destruct (parsed_shapes _ _ _ _ _ Hp) as (_ & _ & _ & Hdist).
  pose proof (formulate_all_constraints inst Hdist Hcap Hlim) as Hcts.
  split.
  - destruct (built_families inst)
      as (cover & capacity & truck & Heq & Hfam).
    exists cover, capacity, truck. split; [congruence|done].
  - intros a. rewrite Hcts. apply built_conditions.
Qed.

(** C2 (amended). For every instance the parser returns that has an
    opening cost and a capacity for each of its facilities, with all
    capacities and the distance limit nonzero, [solve] submits for
    minimization an objective whose value is the sum over the facilities
    f of openingCost[f] * (sum_c x[f][c] * demand[c]) / capacity[f], plus
    sum_c x[f][c] * allocationCost[c][f], plus truckUsageCost * (sum_c
    x[f][c] * distance[c][f]) / distance limit.  A customer without a
    value on the demand line has no term in the first sum. *)
Theorem C2_objective fs fileName inst :
  parsed_ fs fileName inst →
  (nF inst ≤ length (openingCostF inst))%nat →
  (nF inst ≤ length (capacityF inst))%nat →
  divisors_nonzero inst →
  minimizes_spec_objective inst (solve cplex (init fs fileName).2).1.
Proof.
  intros Hp Ho Hcap Hnz. rewrite (init_parsed _ _ _ _ _ Hp).
  rewrite (solve_model cplex (Build_LPSolver (Some inst) new_model) inst
             eq_refl). simpl.
  destruct (parsed_shapes _ _ _ _ _ Hp) as (_ & _ & Halloc & Hdist).
  rewrite (formulate_built inst Hdist Hcap Ho Halloc
             (divisors_nondegenerate inst Hcap Hnz)). simpl.
  exists (cost_expr inst). split; [done|]. intros a. apply eval_cost_any.
Qed.




(** C10. For every file whose parse is absent, constructing the solver
    object succeeds and stores the absent instance with a new model, and
    [solve] on it raises the attribute error of the first access to the
    instance: it returns nothing, the sentinel -1 included. *)
Theorem C10_absent_instance fs fileName :
  (getLPInstance 0%Q py_int py_float fs fileName).2 = None →
  absent_instance_raises cplex (init fs fileName).2.
Proof.
  unfold LPSolver_init, absent_instance_raises.
  destruct (getLPInstance _ _ _ _ _) as [out r]. simpl. intros ->.
  unfold solve. simpl. split_and!; try done.
Qed.
End SolverClaims.

(** ** The claims on the example files *)

Lemma reads_of_map {A} (r : string → option A) toks vs :
  map r toks = map Some vs → reads r toks vs.
Proof.
  unfold reads. revert vs. induction toks as [|t toks IH]; intros [|v vs] H;
    try discriminate; [constructor|].
  injection H as Hr H. constructor; [done|by apply IH].
Qed.

Lemma numeric_of_map {A} (r : string → option A) toks vs :
  map r toks = map Some vs → numeric r toks.
Proof. intros H. exists vs. by apply reads_of_map. Qed.

Section OnExamples.
Import Numerals Examples.

Local Abbreviation parsed_ := (parsed 0%Q int_of_string float_of_string).

Lemma scenario_parsed : parsed_ fs "scenario.txt" scenario.
Proof. vm_compute. reflexivity. Qed.

Lemma scenario_well_formed :
  well_formed int_of_string float_of_string scenario_text 2 2.
Proof.
  split.
  - by apply (reads_of_map _ _ [2; 2]%Z).
  - done.
  - split; [by apply (numeric_of_map _ _ [1; 2; 2; 1]%Q)|done].
  - split; [by apply (numeric_of_map _ _ [10; 10]%Q)|done].
  - split; [by apply (numeric_of_map _ _ [5; 5]%Q)|done].
  - split; [by apply (numeric_of_map _ _ [20; 20]%Q)|done].
  - split; [by apply (numeric_of_map _ _ [100; 1]%Q)|done].
  - split; [by apply (numeric_of_map _ _ [1; 1; 1; 1]%Q)|done].
Qed.

Lemma scenario_nondegenerate : nondegenerate scenario.
Proof.
  split; [by intros H|].
  intros [|[|f]] Hf H; [discriminate H|discriminate H|].
  unfold nF in Hf. simpl in Hf. lia.
Qed.

Lemma C3_witness :
  fs "scenario.txt" = Readable scenario_text
  ∧ well_formed int_of_string float_of_string scenario_text 2 2
  ∧ ∃ inst,
      getLPInstance 0%Q int_of_string float_of_string fs "scenario.txt"
      = ([], Some inst)
      ∧ numCustomers inst = 2%Z ∧ numFacilities inst = 2%Z
      ∧ matrix_of_line float_of_string (tokens scenario_text 1)
          (allocCostCF inst) (Z.to_nat 2) (Z.to_nat 2)
      ∧ matrix_of_line float_of_string (tokens scenario_text 6)
          (distanceCF inst) (Z.to_nat 2) (Z.to_nat 2).
Proof.
  split; [reflexivity|]. split; [exact scenario_well_formed|].
  exact (C3_matrices_round_trip 0%Q int_of_string float_of_string fs
           "scenario.txt" scenario_text 2 2 eq_refl scenario_well_formed).
Defined.


Lemma C8_witness :
  parsed_ fs "scenario.txt" scenario
  ∧ numMaxVehiclePerFacility scenario = numCustomers scenario
  ∧ ∃ text t1 t2, fs "scenario.txt" = Readable text
                  ∧ tokens text 0 = [t1; t2]
                  ∧ int_of_string t1
                    = Some (numMaxVehiclePerFacility scenario).
Proof.
  split; [exact scenario_parsed|].
  exact (C8_vehicles_are_customers 0%Q int_of_string float_of_string fs
           "scenario.txt" scenario scenario_parsed).
Defined.

Lemma C9_witness :
  parsed_ fs "scenario.txt" scenario
  ∧ declares_x scenario
      (solve finds_nothing (solver_for "scenario.txt")).1.
Proof.
  split; [exact scenario_parsed|].
  exact (C9_decision_variables int_of_string float_of_string finds_nothing
           fs "scenario.txt" scenario scenario_parsed).
Defined.

Lemma scenario_divisors : divisors_nonzero scenario.
Proof.
  split; [by intros H|]. repeat constructor; intros H; discriminate H.
Qed.

Lemma C1_witness :
  parsed_ fs "scenario.txt" scenario
  ∧ (nF scenario ≤ length (capacityF scenario))%nat
  ∧ ((0 < nF scenario)%nat → ¬ (truckDistLimit scenario == 0)%Q)
  ∧ constraints_as_specified scenario
      (solve finds_nothing (solver_for "scenario.txt")).1.
Proof.
  assert (Hcap : (nF scenario ≤ length (capacityF scenario))%nat)
    by (vm_compute; lia).
  assert (Hlim : (0 < nF scenario)%nat → ¬ (truckDistLimit scenario == 0)%Q)
    by (intros _; apply scenario_divisors).
  split_and!; [exact scenario_parsed|exact Hcap|exact Hlim|].
  exact (C1_constraint_families int_of_string float_of_string finds_nothing
           fs "scenario.txt" scenario scenario_parsed Hcap Hlim).
Defined.

Lemma zero_limit_parsed : parsed_ fs "zero_limit.txt" zero_limit.
Proof. vm_compute. reflexivity. Qed.

Lemma short_capacity_parsed :
  parsed_ MoreExamples.fs "short_capacity.txt" MoreExamples.short_capacity.
Proof. vm_compute. reflexivity. Qed.

(** A model with fewer constraints than the three families have. *)
Lemma too_few_constraints inst m :
  (length (constraints m) < nC inst + 2 * nF inst)%nat →
  ¬ constraints_as_specified inst m.
Proof.
  intros Hlen [(cover & capacity & truck & Heq & [H1 _] & [H2 _] & [H3 _]) _].
  rewrite Heq, !length_app, H1, H2, H3 in Hlen. lia.
Qed.

(** C1, as stated, fails.  The first file has a zero distance limit:
    [solve] stops at the first truck constraint, and the model has the
    four constraints of the first two families only.  The second has one
    capacity for two facilities: [solve] stops at the second capacity
    constraint, and the model has three constraints. *)
Lemma C1_counterexample :
  (parsed_ fs "zero_limit.txt" zero_limit
   ∧ ∀ cplex,
       length (constraints (solve cplex (solver_for "zero_limit.txt")).1)
       = 4%nat
       ∧ ¬ constraints_as_specified zero_limit
             (solve cplex (solver_for "zero_limit.txt")).1)
  ∧ (parsed_ MoreExamples.fs "short_capacity.txt"
       MoreExamples.short_capacity
     ∧ ∀ cplex,
         length (constraints
                   (solve cplex
                      (MoreExamples.solver_for "short_capacity.txt")).1)
         = 3%nat
         ∧ ¬ constraints_as_specified MoreExamples.short_capacity
               (solve cplex
                  (MoreExamples.solver_for "short_capacity.txt")).1).
Proof.
  split; (split; [exact zero_limit_parsed || exact short_capacity_parsed|]);
    intros cplex.
  - assert (Hlen : length (constraints
                             (solve cplex (solver_for "zero_limit.txt")).1)
                   = 4%nat) by (vm_compute; reflexivity).
    split; [exact Hlen|]. apply too_few_constraints.
    rewrite Hlen. vm_compute. lia.
  - assert (Hlen : length (constraints
                             (solve cplex
                                (MoreExamples.solver_for
                                   "short_capacity.txt")).1)
                   = 3%nat) by (vm_compute; reflexivity).
    split; [exact Hlen|]. apply too_few_constraints.
    rewrite Hlen. vm_compute. lia.
Qed.

Lemma C2_witness :
  parsed_ fs "scenario.txt" scenario
  ∧ (nF scenario ≤ length (openingCostF scenario))%nat
  ∧ (nF scenario ≤ length (capacityF scenario))%nat
  ∧ divisors_nonzero scenario
  ∧ minimizes_spec_objective scenario
      (solve finds_nothing (solver_for "scenario.txt")).1.
Proof.
  assert (Ho : (nF scenario ≤ length (openingCostF scenario))%nat)
    by (vm_compute; lia).
  assert (Hcap : (nF scenario ≤ length (capacityF scenario))%nat)
    by (vm_compute; lia).
  split_and!; [exact scenario_parsed|exact Ho|exact Hcap
              |exact scenario_divisors|].
  exact (C2_objective int_of_string float_of_string finds_nothing
           fs "scenario.txt" scenario scenario_parsed Ho Hcap
           scenario_divisors).
Defined.

Lemma short_opening_parsed :
  parsed_ MoreExamples.fs "short_opening.txt" MoreExamples.short_opening.
Proof. vm_compute. reflexivity. Qed.

Lemma no_objective inst m :
  objective m = None → ¬ minimizes_spec_objective inst m.
Proof. intros Hnone (e & He & _). congruence. Qed.

(** C2, as stated, fails.  The capacities and the distance limit of both
    files are nonzero.  The first has one opening cost for two
    facilities, the second one capacity: [solve] raises numpy's index
    error, in the objective for the first and at the second capacity
    constraint for the second, and no objective is set. *)
Lemma C2_counterexample :
  (parsed_ MoreExamples.fs "short_opening.txt" MoreExamples.short_opening
   ∧ divisors_nonzero MoreExamples.short_opening
   ∧ ∀ cplex,
       (solve cplex (MoreExamples.solver_for "short_opening.txt")).2
       = raise (out_of_bounds 1 0 1)
       ∧ ¬ minimizes_spec_objective MoreExamples.short_opening
             (solve cplex (MoreExamples.solver_for "short_opening.txt")).1)
  ∧ (parsed_ MoreExamples.fs "short_capacity.txt"
       MoreExamples.short_capacity
     ∧ divisors_nonzero MoreExamples.short_capacity
     ∧ ∀ cplex,
         (solve cplex (MoreExamples.solver_for "short_capacity.txt")).2
         = raise (out_of_bounds 1 0 1)
         ∧ ¬ minimizes_spec_objective MoreExamples.short_capacity
               (solve cplex
                  (MoreExamples.solver_for "short_capacity.txt")).1).
Proof.
  split; (split_and!;
    [exact short_opening_parsed || exact short_capacity_parsed
    |split; [by intros H|repeat constructor; intros H; discriminate H]
    |intros cplex; split;
       [vm_compute; reflexivity
       |apply no_objective; vm_compute; reflexivity]]).
Qed.















Lemma C10_witness :
  (getLPInstance 0%Q int_of_string float_of_string fs "missing.txt").2
  = None
  ∧ absent_instance_raises finds_nothing (solver_for "missing.txt").
Proof.
  split; [reflexivity|].
  exact (C10_absent_instance int_of_string float_of_string finds_nothing
           fs "missing.txt" eq_refl).
Defined.

(** The int -1 and a float objective of -1 are different values that
    compare equal under [==]. *)
Lemma sentinel_compares_equal :
  PyInt (-1) ≠ PyFloat (-1) ∧ value_eqb (PyInt (-1)) (PyFloat (-1)) = true.
Proof. split; [discriminate|reflexivity]. Qed.
End OnExamples.

(** ** More on the parser: layout, and the exception that is reported *)

Section ParserExtras.
Context {F : Type} (fzero : F).
Variable py_int : string → option Z.
Variable py_float : string → option F.

Local Abbreviation parse := (getLPInstance fzero py_int py_float).

Lemma getLPInstance_raises fs fileName e :
  getLPInstance_body fzero py_int py_float fs fileName = inl e →
  parse fs fileName = ([error_prefix +:+ str_exn e], None).
Proof. intros H. unfold getLPInstance. by rewrite H. Qed.

(** X1. The parser sees a file only through the tokens of its first seven
    lines: two readable files that have the same tokens on each of these
    lines give the same output and the same result, whatever their
    blanks, their line ends and the text after line 7. *)
Theorem X1_layout_is_ignored fs fileName text fs' fileName' text' :
  fs fileName = Readable text →
  fs' fileName' = Readable text' →
  (∀ k, (k < 7)%nat → tokens text k = tokens text' k) →
  parse fs fileName = parse fs' fileName'.
Proof.
  intros Hfs Hfs' Htok. unfold getLPInstance.
  rewrite !body_tokens, Hfs, Hfs'.
  by rewrite !Htok by lia.
Qed.

(** X2. A readable file whose first line has no token (an empty file
    among them) gives [None], and the line printed reports the failed
    unpacking of two values out of none. *)
Theorem X2_blank_first_line fs fileName text :
  fs fileName = Readable text →
  tokens text 0 = [] →
  parse fs fileName
  = ([error_prefix +:+ "not enough values to unpack (expected 2, got 0)"],
     None).
Proof.
  intros Hfs Htok.
  apply (getLPInstance_raises _ _
           (ValueError "not enough values to unpack (expected 2, got 0)")).
  rewrite body_tokens, Hfs, Htok. done.
Qed.

(** X3. A negative dimension on line 1, both dimensions being of at most
    32 bits, is reported as numpy's "negative dimensions" error and gives
    [None], and the lines after the first play no part: the arrays are
    allocated before line 2 is read. *)
Theorem X3_negative_dimension fs fileName text C Fn :
  fs fileName = Readable text →
  reads py_int (tokens text 0) [C; Fn] →
  fits_32_bits C → fits_32_bits Fn →
  (C < 0 ∨ Fn < 0)%Z →
  parse fs fileName
  = ([error_prefix +:+ "negative dimensions are not allowed"], None).
Proof.
  intros Hfs Hdims _ _ Hneg.
  apply (getLPInstance_raises _ _
           (ValueError "negative dimensions are not allowed")).
  rewrite body_tokens, Hfs.
  apply mapM_int_reads in Hdims. rewrite Hdims. simpl.
  by rewrite zeros_negative.
Qed.

(** X13. Values after the first C * Fn of a matrix line are read and
    dropped.  When a file parses to an instance, a file with the same
    tokens and more tokens at the end of line 2 (or of line 7) parses to
    the same instance if every added token is numeric, and to [None] if
    one of them is not: the whole line is converted before any value is
    used. *)
Theorem X13_surplus_matrix_tokens fs fileName text fs' fileName' text'
    k extra inst :
  fs fileName = Readable text →
  fs' fileName' = Readable text' →
  k = 1%nat ∨ k = 6%nat →
  (∀ j, (j < 7)%nat → j ≠ k → tokens text' j = tokens text j) →
  tokens text' k = tokens text k ++ extra →
  parsed fzero py_int py_float fs fileName inst →
  (numeric py_float extra → parse fs' fileName' = ([], Some inst))
  ∧ (¬ numeric py_float extra → (parse fs' fileName').2 = None).
Proof.
  intros Hfs Hfs' Hk Hsame Hmore Hp. split.
  - intros [evs Hevs].
    apply getLPInstance_Some in Hp as (text0 & Hfs0 & Hpop).
    rewrite Hfs in Hfs0. injection Hfs0 as <-.
    assert (Hbody : getLPInstance_body fzero py_int py_float fs' fileName'
                    = inr inst).
    { apply body_populated. exists text'. split; [done|].
      destruct Hpop as [Hdims Hnn HA Hd Ho Hcap Hveh Htruck HD].
      destruct HA as (HA0 & HA1 & vs1 & Hvs1 & HAf & Hl1).
      destruct HD as (HD0 & HD1 & vs6 & Hvs6 & HDf & Hl6).
      assert (Hext : ∀ vs, reads py_float (tokens text k) vs →
                (Z.to_nat (numCustomers inst) * Z.to_nat (numFacilities inst)
                 ≤ length vs)%nat →
                ∃ vs', reads py_float (tokens text' k) vs'
                       ∧ take (Z.to_nat (numCustomers inst)
                               * Z.to_nat (numFacilities inst)) vs
                         = take (Z.to_nat (numCustomers inst)
                                 * Z.to_nat (numFacilities inst)) vs'
                       ∧ (Z.to_nat (numCustomers inst)
                          * Z.to_nat (numFacilities inst) ≤ length vs')%nat).
      { intros vs Hvs Hl. exists (vs ++ evs). rewrite Hmore. split_and!.
        - by apply Forall2_app.
        - by rewrite take_app_le.
        - rewrite length_app. lia. }
      destruct Hk as [-> | ->].
      + destruct (Hext vs1 Hvs1 Hl1) as (vs' & Hvs' & Htake & Hl').
        split; rewrite ?Hsame by lia; try done.
        * split_and!; try done. exists vs'. by rewrite <- Htake.
        * split_and!; try done. by exists vs6.
      + destruct (Hext vs6 Hvs6 Hl6) as (vs' & Hvs' & Htake & Hl').
        split; rewrite ?Hsame by lia; try done.
        * split_and!; try done. by exists vs1.
        * split_and!; try done. exists vs'. by rewrite <- Htake. }
    unfold getLPInstance. by rewrite Hbody.
  - intros Hnot.
    destruct (parse fs' fileName').2 as [inst'|] eqn:Hr; [|done].
    apply getLPInstance_Some in Hr as (text0 & Hfs0 & Hpop).
    rewrite Hfs' in Hfs0. injection Hfs0 as <-.
    destruct Hnot.
    destruct Hpop as [_ _ (_ & _ & vs1 & Hvs1 & _) _ _ _ _ _
                        (_ & _ & vs6 & Hvs6 & _)].
    destruct Hk as [-> | ->]; rewrite Hmore in *.
    + apply Forall2_app_inv_l in Hvs1 as (v1 & v2 & _ & H2 & _).
      by exists v2.
    + apply Forall2_app_inv_l in Hvs6 as (v1 & v2 & _ & H2 & _).
      by exists v2.
Qed.
End ParserExtras.

(** ** More on [solve]: repeated calls, missing values, the sign of the
    objective, the truck constraints *)

(** A body that evaluates a constraint and adds it: when it does not
    raise, it has added that one constraint. *)
Lemma adds_one {B} (r : result B) (k : B → Constraint)
    (name : option string) m m' :
  bindM (lift r) (λ b, add_constraint (k b) name) m = (m', ret tt) →
  vars m' = vars m ∧ objective m' = objective m
  ∧ ∃ ct, constraints m' = constraints m ++ [ct].
Proof.
  unfold bindM, lift. destruct r as [e|b]; [discriminate|].
  unfold add_constraint. intros [= <-]. simpl. eauto.
Qed.

(** A loop of such bodies: when it ends without raising, it has added one
    constraint per turn. *)
Lemma forM_adds_one_each {A} (body : A → M unit) (l : list A) :
  (∀ i m m', body i m = (m', ret tt) →
     vars m' = vars m ∧ objective m' = objective m
     ∧ ∃ ct, constraints m' = constraints m ++ [ct]) →
  ∀ m m', forM l body m = (m', ret tt) →
  vars m' = vars m ∧ objective m' = objective m
  ∧ ∃ cts, constraints m' = constraints m ++ cts ∧ length cts = length l.
Proof.
  intros Hbody. induction l as [|i l IH]; intros m m'; simpl.
  - intros [= <-]. split_and!; try done. exists []. by rewrite app_nil_r.
  - unfold bindM at 1.
    destruct (body i m) as [m1 [e|[]]] eqn:Hi; [discriminate|].
    apply Hbody in Hi as (Hv1 & Ho1 & ct & Hc1).
    intros H. apply IH in H as (Hv & Ho & cts & Hc & Hlen).
    split_and!; try congruence. exists (ct :: cts).
    rewrite Hc, Hc1, <- app_assoc. simpl. split; [done|]. by rewrite Hlen.
Qed.

Lemma length_concat_rows {A} (g : nat → nat → A) s n k :
  length (concat (map (λ f, map (g f) (seq 0 k)) (seq s n))) = (n * k)%nat.
Proof.
  revert s. induction n as [|n IH]; intros s; simpl; [done|].
  rewrite length_app, length_map, length_seq, IH. done.
Qed.

Lemma Qplus_nonneg (p q : Q) : (0 <= p → 0 <= q → 0 <= p + q)%Q.
Proof.
  intros Hp Hq. apply Qle_trans with (0 + 0)%Q; [done|].
  by apply Qplus_le_compat.
Qed.

Lemma big_nonneg n g :
  (∀ i, (i < n)%nat → (0 <= g i)%Q) → (0 <= big n g)%Q.
Proof.
  intros H. apply Qle_trans with (big n (λ _, 0%Q)); [|by apply big_le].
  unfold big. induction (seq 0 n) as [|i l IH]; simpl; [done|].
  by apply Qplus_nonneg.
Qed.

Lemma big_const n (k : Q) : (big n (λ _, k) == inject_Z (Z.of_nat n) * k)%Q.
Proof.
  unfold big. generalize 0%nat as s.
  induction n as [|n IH]; intros s.
  - simpl. ring.
  - cbn [seq map Qsum foldr]. fold (Qsum (map (λ _, k) (seq (S s) n))).
    rewrite (IH (S s)), Nat2Z.inj_succ. unfold Z.succ.
    rewrite inject_Z_plus. ring.
Qed.

Lemma at_Forall (P : Q → Prop) (l : list Q) i :
  P 0%Q → Forall P l → P (at_ l i).
Proof.
  intros H0 Hall. unfold at_. destruct (l !! i) as [v|] eqn:Hv; [|done].
  by apply (Forall_lookup_1 _ _ _ _ Hall Hv).
Qed.

Lemma cell_Forall (P : Q → Prop) (A : ndarray2 Q) c f :
  P 0%Q → Forall P (flat A) → P (cell A c f).
Proof.
  intros H0 Hall. unfold cell, getitem2.
  destruct (_ && _); [|done].
  destruct (flat A !! _) as [v|] eqn:Hv; [|done].
  by apply (Forall_lookup_1 _ _ _ _ Hall Hv).
Qed.

(** The bounds of the variables of a model of [solve], on the values of
    the [x[f][c]]. *)
Lemma bounds_x_val inst a f c :
  Forall (within_bounds a) (concat (x_vars inst)) →
  (f < nF inst)%nat → (c < nC inst)%nat →
  (0 <= x_val inst a f c)%Q ∧ (x_val inst a f c <= 1)%Q.
Proof.
  rewrite concat_x_vars, Forall_map_seq. intros H Hf Hc.
  apply (H (f * nC inst + c)%nat). nia.
Qed.

Section SolverExtras.
Variable py_int : string → option Z.
Variable py_float : string → option Q.
Variable cplex : Model → option Q.

Local Abbreviation init := (LPSolver_init py_int py_float).
Local Abbreviation parsed_ := (parsed 0%Q py_int py_float).

(** The formulation on any model: when it ends without raising, the model
    has the variables and the constraints it had, then those of this
    call. *)
Lemma formulate_grows inst m m' :
  formulate inst m = (m', ret tt) →
  grows_by m m' (nF inst * nC inst) (nC inst + 2 * nF inst)
  ∧ ∃ e, objective m' = Some (Minimize, e).
Proof.
  unfold formulate. unfold bindM at 1. rewrite var_lists.
  cbv zeta. unfold ret at 1. cbv iota beta.
  set (x := map _ (seq 0 (length (range (numFacilities inst))))).
  set (m1 := add_vars (concat x) m).
  unfold bindM at 1.
  destruct (forM _ (demand_satisfied inst x) m1) as [m2 [e|[]]] eqn:H2;
    [discriminate|].
  unfold bindM at 1.
  destruct (forM _ (facility_capacity inst x) m2) as [m3 [e|[]]] eqn:H3;
    [discriminate|].
  unfold bindM at 1.
  destruct (forM _ (max_truck inst x) m3) as [m4 [e|[]]] eqn:H4;
    [discriminate|].
  unfold bindM, lift.
  destruct (total_cost inst x) as [e|cost]; [discriminate|].
  unfold minimize. intros [= <-]. simpl.
  apply forM_adds_one_each in H2 as (Hv2 & _ & c2 & Hc2 & Hl2);
    [|intros i n n'; apply adds_one].
  apply forM_adds_one_each in H3 as (Hv3 & _ & c3 & Hc3 & Hl3);
    [|intros i n n'; apply adds_one].
  apply forM_adds_one_each in H4 as (Hv4 & _ & c4 & Hc4 & Hl4);
    [|intros i n n'; apply adds_one].
  unfold range in *. rewrite length_seq in *.
  split; [split|by eauto].
  - exists (concat x). simpl. split; [by rewrite Hv4, Hv3, Hv2|].
    subst x. by rewrite length_concat_rows, length_seq.
  - exists (c2 ++ c3 ++ c4). simpl.
    rewrite Hc4, Hc3, Hc2, <- !app_assoc. split; [done|].
    rewrite !length_app, Hl2, Hl3, Hl4. unfold nC, nF. lia.
Qed.

(** X5. A call of [solve] that returns has added numFacilities *
    numCustomers variables and numCustomers + 2 * numFacilities
    constraints to whatever the model of the object held before: the
    model is not emptied between calls, so a second call on the same
    object solves a model with both copies. *)
Theorem X5_calls_accumulate (self : LPSolver) inst r :
  lpinst self = Some inst →
  (solve cplex self).2 = ret r →
  grows_by (model self) (solve cplex self).1
    (nF inst * nC inst) (nC inst + 2 * nF inst).
Proof.
  intros Hinst. rewrite (solve_formulate cplex self inst Hinst). simpl.
  destruct (formulate inst (model self)) as [m' [e|[]]] eqn:Hf; simpl;
    [discriminate|].
  intros _. by apply formulate_grows in Hf as [H _].
Qed.
(** X6. When line 5 of the file holds fewer capacities than there are
    facilities, the parser still returns an instance, and [solve] on it
    raises numpy's index error at the first facility without a capacity;
    the model is left with all variables, the coverage constraints and
    the capacity constraints of the facilities before that one, and no
    objective. *)
Theorem X6_missing_capacity fs fileName inst :
  parsed_ fs fileName inst →
  (length (capacityF inst) < nF inst)%nat →
  stops_at_capacity inst (length (capacityF inst))
    (solve cplex (init fs fileName).2).
Proof.
  intros Hp Hk. rewrite (init_parsed _ _ _ _ _ Hp).
  rewrite (solve_formulate cplex (Build_LPSolver (Some inst) new_model)
             inst eq_refl). simpl.
  rewrite (formulate_missing_capacity inst Hk). simpl. done.
Qed.

(** X9. For a readable file in the format of the specification whose
    capacities and distance limit are not zero, [solve] raises nothing:
    it builds the complete model and returns what the solver reports for
    it, the objective value or -1. *)
Theorem X9_well_formed_file_solves fs fileName text C Fn inst :
  fs fileName = Readable text →
  well_formed py_int py_float text C Fn →
  parsed_ fs fileName inst →
  nondegenerate inst →
  solve cplex (init fs fileName).2
  = (built inst,
     ret (match cplex (built inst) with
          | Some objective_value => PyFloat objective_value
          | None => PyInt (-1)
          end)).
Proof.
  intros Hfs Hwf Hp Hnd.
  destruct (well_formed_consistent _ _ _ _ _ _ _ _ Hfs Hwf Hp)
    as (_ & _ & Hcons).
  rewrite (init_parsed _ _ _ _ _ Hp).
  rewrite (solve_formulate cplex (Build_LPSolver (Some inst) new_model)
             inst eq_refl). simpl.
  by rewrite (formulate_complete inst Hcons Hnd).
Qed.
(** X7. When the costs, demands and distances of the instance are not
    negative and its capacities and distance limit are positive, the
    objective that [solve] minimizes is not negative at any assignment
    within the bounds of the variables: no such assignment has the
    objective value -1 that [solve] returns for "no solution". *)
Theorem X7_objective_not_negative fs fileName inst :
  parsed_ fs fileName inst →
  length (demandC inst) = nC inst →
  length (openingCostF inst) = nF inst →
  length (capacityF inst) = nF inst →
  nonnegative_data inst →
  ∃ e, objective (solve cplex (init fs fileName).2).1 = Some (Minimize, e)
       ∧ ∀ a, Forall (within_bounds a)
                     (vars (solve cplex (init fs fileName).2).1) →
              (0 <= eval a e)%Q.
Proof.
  intros Hp Hd Ho Hcap [Hna Hnd Hno Hnc Hnl Hnu Hndist].
  pose proof (parsed_consistent _ _ _ _ _ Hp Hd Ho Hcap) as Hcons.
  assert (Hpos : ∀ f, (f < nF inst)%nat → (0 < at_ (capacityF inst) f)%Q).
  { intros f Hf. unfold at_.
    destruct (lookup_lt_is_Some_2 (capacityF inst) f) as [v Hv]; [lia|].
    rewrite Hv. simpl. by apply (Forall_lookup_1 _ _ _ _ Hnc Hv). }
  assert (Hnondeg : nondegenerate inst).
  { split.
    - intros H. rewrite H in Hnl. by apply (Qlt_irrefl 0).
    - intros f Hf H. specialize (Hpos f Hf). rewrite H in Hpos.
      by apply (Qlt_irrefl 0). }
  rewrite (init_parsed _ _ _ _ _ Hp).
  rewrite (solve_model cplex (Build_LPSolver (Some inst) new_model) inst
             eq_refl). simpl.
  rewrite (formulate_complete inst Hcons Hnondeg). simpl.
  exists (cost_expr inst). split; [done|]. intros a Hb.
  rewrite (eval_cost inst a Hd). unfold spec_objective.
  assert (Hsum : ∀ f (w : nat → Q), (f < nF inst)%nat →
            (∀ c, (0 <= w c)%Q) →
            (0 <= big (nC inst) (λ c, x_val inst a f c * w c))%Q).
  { intros f w Hf Hw. apply big_nonneg. intros c Hc.
    apply Qmult_le_0_compat; [|done].
    by apply (bounds_x_val inst a f c Hb). }
  apply big_nonneg. intros f Hf.
  repeat apply Qplus_nonneg.
  - apply Qle_shift_div_l; [by apply Hpos|]. rewrite Qmult_0_l.
    apply Qmult_le_0_compat; [by apply at_Forall|].
    apply Hsum; [done|]. intros c. by apply at_Forall.
  - apply Hsum; [done|]. intros c. by apply cell_Forall.
  - apply Qle_shift_div_l; [done|]. rewrite Qmult_0_l.
    apply Qmult_le_0_compat; [done|].
    apply Hsum; [done|]. intros c. by apply cell_Forall.
Qed.

(** X8. For an instance the parser returns that has a capacity for each
    of its facilities, and whose round trips each fit the distance limit
    of one truck, the truck constraints of [solve] exclude nothing: an
    assignment within the bounds of the variables satisfies all the
    constraints of the model as soon as it covers every demand and
    respects every capacity.  The cap is the number of customers, and no
    facility can use more than one truck per customer. *)
Theorem X8_truck_constraints_never_bind fs fileName inst a :
  parsed_ fs fileName inst →
  (nF inst ≤ length (capacityF inst))%nat →
  trips_fit inst →
  Forall (within_bounds a) (vars (solve cplex (init fs fileName).2).1) →
  (Forall (satisfies a) (constraints (solve cplex (init fs fileName).2).1)
   ↔ demand_covered inst a ∧ capacity_respected inst a).
Proof.
  intros Hp Hcap [Hlim Hfit].
  destruct (parsed_shapes _ _ _ _ _ Hp) as (HC & _ & _ & Hdist).
  assert (Hveh : numMaxVehiclePerFacility inst = numCustomers inst).
  { apply getLPInstance_Some in Hp as (text & _ & Hpop). apply Hpop. }
  assert (Hne : ¬ (truckDistLimit inst == 0)%Q).
  { intros H. rewrite H in Hlim. by apply (Qlt_irrefl 0). }
  rewrite (init_parsed _ _ _ _ _ Hp).
  rewrite (solve_model cplex (Build_LPSolver (Some inst) new_model) inst
             eq_refl). simpl.
  rewrite formulate_vars,
    (formulate_all_constraints inst Hdist Hcap (λ _, Hne)).
  intros Hb. rewrite (built_conditions inst a).
  split; [by intros (? & ? & _)|]. intros [Hcov Hres]. split_and!; try done.
  intros f Hf. apply Qle_shift_div_r; [done|].
  rewrite Hveh. replace (numCustomers inst) with (Z.of_nat (nC inst))
    by (unfold nC; lia).
  rewrite <- big_const. apply big_le. intros c Hc.
  destruct (bounds_x_val inst a f c Hb Hf Hc) as [Hx0 Hx1].
  assert (Hcell : (0 <= cell (distanceCF inst) c f
                   ∧ cell (distanceCF inst) c f <= truckDistLimit inst)%Q).
  { apply (cell_Forall (λ d, 0 <= d ∧ d <= truckDistLimit inst)%Q);
      [|done]. split; [done|]. by apply Qlt_le_weak. }
  destruct Hcell as [Hd0 Hd1].
  apply Qle_trans with (1 * cell (distanceCF inst) c f)%Q.
  - by apply Qmult_le_compat_r.
  - by rewrite Qmult_1_l.
Qed.
(** X10. From the file to the model: for a readable file in the format of
    the specification with a nonzero distance limit, the truck constraint
    of facility f is constraint number numCustomers + numFacilities + f of
    the model, and its left side weights x[f][c] by the value of token
    c * numFacilities + f of line 7, divided by the limit: the matrix
    that is read customer by customer is used facility by facility. *)
Theorem X10_distance_tokens_weight_x fs fileName text C Fn inst ds f :
  fs fileName = Readable text →
  well_formed py_int py_float text C Fn →
  parsed_ fs fileName inst →
  ¬ (truckDistLimit inst == 0)%Q →
  reads py_float (tokens text 6) ds →
  (f < nF inst)%nat →
  ∃ ct,
    constraints (solve cplex (init fs fileName).2).1
      !! (nC inst + nF inst + f)%nat = Some ct
    ∧ ct_sense ct = LE
    ∧ ∀ a, (eval a (ct_lhs ct)
            == big (nC inst)
                 (λ c, x_val inst a f c * at_ ds (c * nF inst + f))
               / truckDistLimit inst)%Q.
Proof.
  intros Hfs Hwf Hp Hlim Hds Hf.
  destruct (well_formed_consistent _ _ _ _ _ _ _ _ Hfs Hwf Hp)
    as (HC & HFn & Hcons).
  assert (Hflat : flat (distanceCF inst) = ds).
  { pose proof Hp as Hp'.
    apply getLPInstance_Some in Hp' as (text' & Hfs' & Hpop).
    rewrite Hfs in Hfs'. injection Hfs' as <-.
    destruct Hpop as [_ _ _ _ _ _ _ _ (_ & _ & vs & Hvs & Hfl & Hlen)].
    rewrite (reads_inj _ _ _ _ Hds Hvs), Hfl. apply take_ge.
    destruct Hwf as [_ _ _ _ _ _ _ [_ Hl6]].
    rewrite <- (reads_length _ _ _ Hvs), Hl6, HC, HFn. done. }
  rewrite (init_parsed _ _ _ _ _ Hp).
  rewrite (solve_model cplex (Build_LPSolver (Some inst) new_model) inst
             eq_refl). simpl.
  rewrite (formulate_constraints inst (cons_capacity _ Hcons)
             (cons_distance _ Hcons) Hlim). simpl.
  exists (truck_ct inst f). split_and!; [|done|].
  - rewrite lookup_app_r by (rewrite length_map, length_seq; lia).
    rewrite lookup_app_r by (rewrite !length_map, !length_seq; lia).
    rewrite !length_map, !length_seq.
    replace (nC inst + nF inst + f - nC inst - nF inst)%nat with f by lia.
    change (map (truck_ct inst) ?l) with (truck_ct inst <$> l).
    by rewrite list_lookup_fmap, lookup_seq_lt.
  - intros a. rewrite eval_truck.
    apply Qdiv_comp; [|done]. apply big_ext. intros c Hc.
    destruct (cons_distance _ Hcons) as (H0 & H1 & _).
    unfold cell, getitem2, at_. rewrite H0, H1, Hflat.
    rewrite (proj2 (Nat.ltb_lt c (nC inst))) by done.
    rewrite (proj2 (Nat.ltb_lt f (nF inst))) by done. done.
Qed.
End SolverExtras.

(** ** The diet example *)

Section DietFacts.
Import Diet.

Lemma diet_built :
  build new_model
  = (diet, ret [{| var_index := 0; var_type := Continuous;
                   var_lb := 0; var_ub := 1000 |};
                {| var_index := 1; var_type := Continuous;
                   var_lb := 0; var_ub := 1000 |}]).
Proof. reflexivity. Qed.

(** The cost of a feasible diet is at least 67. *)
Lemma diet_cost_bound a e :
  objective diet = Some (Minimize, e) → feasible diet a →
  (67 <= eval a e)%Q.
Proof.
  intros [= <-] [_ Hcts]. simpl in Hcts.
  apply Forall_cons in Hcts as [_ Hcts].
  apply Forall_cons in Hcts as [H2 Hcts].
  apply Forall_cons in Hcts as [H3 _].
  unfold satisfies in *. simpl in *. lra.
Qed.

(** X11. [dietProblem] reads the objective value of the model before it
    looks at the outcome of the solve: when the solver finds no solution
    the call prints the model table once and raises the library's error,
    and whatever the solver does the call never prints "No solution
    found!". *)
Theorem X11_diet_no_solution_raises (engine : Model → option Solution) :
  (Line "No solution found!" ∉ (dietProblem engine).1)
  ∧ (engine diet = None →
     dietProblem engine = ([Information diet], raise not_solved)).
Proof.
  unfold dietProblem. rewrite diet_built.
  destruct (engine diet) as [s|]; simpl.
  - split; [|discriminate]. intros H.
    repeat (apply elem_of_cons in H as [H|H]; [discriminate H|]).
    by apply elem_of_nil in H.
  - split; [|done]. intros H.
    apply elem_of_cons in H as [H|H]; [discriminate H|].
    by apply elem_of_nil in H.
Qed.

(** X12. The model of [dietProblem] has one best diet, 1.6 of meat and
    1.8 of bread, at the cost 67.  With an engine that is exact on this
    model the call prints the model table twice, these two values and the
    objective value 67, and returns. *)
Theorem X12_diet_optimum (engine : Model → option Solution) :
  exact_on engine diet →
  ∃ meat bread,
    dietProblem engine
    = ([Information diet; Information diet; FloatLine "Meat: " meat;
        FloatLine "Bread: " bread; IntLine "Objective Value: " 67],
       ret tt)
    ∧ (meat == 8 # 5)%Q ∧ (bread == 9 # 5)%Q.
Proof.
  intros (s & e & Hs & He & Hfeas & Hobj & Hmin).
  set (best := λ i : nat, if (i =? 0)%nat then 8 # 5 else 9 # 5).
  assert (Hbest : feasible diet best).
  { split; simpl; repeat constructor; unfold within_bounds, satisfies;
      simpl; try lra; by compute. }
  pose proof (diet_cost_bound _ _ He Hfeas) as Hlow.
  pose proof (Hmin best Hbest) as Hup.
  injection He as <-.
  destruct Hfeas as [_ Hcts]. simpl in Hcts.
  apply Forall_cons in Hcts as [_ Hcts].
  apply Forall_cons in Hcts as [H2 Hcts].
  apply Forall_cons in Hcts as [H3 _].
  unfold satisfies in H2, H3. simpl in *.
  unfold best in Hup. simpl in Hup.
  assert (H67 : (solution_objective s == 67)%Q) by (rewrite Hobj; lra).
  exists (solution_value s 0%nat), (solution_value s 1%nat).
  split_and!; [|lra|lra].
  unfold dietProblem. rewrite diet_built, Hs. simpl.
  by rewrite H67.
Qed.
End DietFacts.

(** ** The further properties on example files *)

Section ExtrasOnExamples.
Import Numerals.

Local Abbreviation parse := (getLPInstance 0%Q int_of_string float_of_string).
Local Abbreviation parsed_ := (parsed 0%Q int_of_string float_of_string).

Lemma X1_witness :
  Examples.fs "scenario.txt" = Readable Examples.scenario_text
  ∧ MoreExamples.fs "respaced.txt" = Readable MoreExamples.respaced_text
  ∧ (∀ k, (k < 7)%nat →
       tokens Examples.scenario_text k = tokens MoreExamples.respaced_text k)
  ∧ parse Examples.fs "scenario.txt" = parse MoreExamples.fs "respaced.txt".
Proof.
  assert (Htok : ∀ k, (k < 7)%nat →
            tokens Examples.scenario_text k
            = tokens MoreExamples.respaced_text k).
  { intros k Hk. do 7 (destruct k as [|k]; [vm_compute; reflexivity|]). lia. }
  split_and!; [reflexivity|reflexivity|exact Htok|].
  exact (X1_layout_is_ignored 0%Q int_of_string float_of_string
           Examples.fs "scenario.txt" Examples.scenario_text
           MoreExamples.fs "respaced.txt" MoreExamples.respaced_text
           eq_refl eq_refl Htok).
Defined.

Lemma X2_witness :
  MoreExamples.fs "empty.txt" = Readable ""
  ∧ tokens "" 0 = []
  ∧ parse MoreExamples.fs "empty.txt"
    = ([error_prefix
        +:+ "not enough values to unpack (expected 2, got 0)"], None).
Proof.
  split_and!; [reflexivity|reflexivity|].
  exact (X2_blank_first_line 0%Q int_of_string float_of_string
           MoreExamples.fs "empty.txt" "" eq_refl eq_refl).
Defined.

Lemma negative_dims :
  reads int_of_string (tokens MoreExamples.negative_text 0) [2; -2]%Z.
Proof. by apply reads_of_map. Qed.

Lemma X3_witness :
  MoreExamples.fs "negative.txt" = Readable MoreExamples.negative_text
  ∧ reads int_of_string (tokens MoreExamples.negative_text 0) [2; -2]%Z
  ∧ fits_32_bits 2 ∧ fits_32_bits (-2)
  ∧ (2 < 0 ∨ -2 < 0)%Z
  ∧ parse MoreExamples.fs "negative.txt"
    = ([error_prefix +:+ "negative dimensions are not allowed"], None).
Proof.
  assert (Hneg : (2 < 0 ∨ -2 < 0)%Z) by (right; lia).
  assert (H2 : fits_32_bits 2) by (unfold fits_32_bits; lia).
  assert (H2' : fits_32_bits (-2)) by (unfold fits_32_bits; lia).
  split_and!; [reflexivity|exact negative_dims|exact H2|exact H2'
              |exact Hneg|].
  exact (X3_negative_dimension 0%Q int_of_string float_of_string
           MoreExamples.fs "negative.txt" MoreExamples.negative_text 2 (-2)
           eq_refl negative_dims H2 H2' Hneg).
Defined.

(** The scenario solved twice on one object. *)
Lemma X5_witness :
  lpinst (after_solve Examples.finds_nothing
            (Examples.solver_for "scenario.txt")) = Some Examples.scenario
  ∧ (solve Examples.finds_nothing
       (after_solve Examples.finds_nothing
          (Examples.solver_for "scenario.txt"))).2 = ret (PyInt (-1))
  ∧ grows_by
      (model (after_solve Examples.finds_nothing
                (Examples.solver_for "scenario.txt")))
      (solve Examples.finds_nothing
         (after_solve Examples.finds_nothing
            (Examples.solver_for "scenario.txt"))).1
      (nF Examples.scenario * nC Examples.scenario)
      (nC Examples.scenario + 2 * nF Examples.scenario).
Proof.
  assert (H1 : lpinst (after_solve Examples.finds_nothing
                         (Examples.solver_for "scenario.txt"))
               = Some Examples.scenario) by (vm_compute; reflexivity).
  assert (H2 : (solve Examples.finds_nothing
                  (after_solve Examples.finds_nothing
                     (Examples.solver_for "scenario.txt"))).2
               = ret (PyInt (-1))) by (vm_compute; reflexivity).
  split_and!; [exact H1|exact H2|].
  exact (X5_calls_accumulate Examples.finds_nothing _ Examples.scenario
           (PyInt (-1)) H1 H2).
Defined.

Lemma X6_witness :
  parsed_ MoreExamples.fs "short_capacity.txt" MoreExamples.short_capacity
  ∧ (length (capacityF MoreExamples.short_capacity)
     < nF MoreExamples.short_capacity)%nat
  ∧ stops_at_capacity MoreExamples.short_capacity
      (length (capacityF MoreExamples.short_capacity))
      (solve Examples.finds_nothing
         (MoreExamples.solver_for "short_capacity.txt")).
Proof.
  assert (Hk : (length (capacityF MoreExamples.short_capacity)
                < nF MoreExamples.short_capacity)%nat)
    by (unfold nF; simpl; lia).
  split_and!; [exact short_capacity_parsed|exact Hk|].
  exact (X6_missing_capacity int_of_string float_of_string
           Examples.finds_nothing MoreExamples.fs "short_capacity.txt"
           MoreExamples.short_capacity short_capacity_parsed Hk).
Defined.

Lemma scenario_nonnegative : nonnegative_data Examples.scenario.
Proof.
  split; simpl; repeat constructor; unfold Qle, Qlt; simpl; lia.
Qed.

Lemma X7_witness :
  parsed_ Examples.fs "scenario.txt" Examples.scenario
  ∧ length (demandC Examples.scenario) = nC Examples.scenario
  ∧ length (openingCostF Examples.scenario) = nF Examples.scenario
  ∧ length (capacityF Examples.scenario) = nF Examples.scenario
  ∧ nonnegative_data Examples.scenario
  ∧ ∃ e, objective (solve Examples.finds_nothing
                      (Examples.solver_for "scenario.txt")).1
         = Some (Minimize, e)
         ∧ ∀ a, Forall (within_bounds a)
                  (vars (solve Examples.finds_nothing
                           (Examples.solver_for "scenario.txt")).1) →
                (0 <= eval a e)%Q.
Proof.
  split_and!; [exact scenario_parsed|reflexivity|reflexivity|reflexivity
              |exact scenario_nonnegative|].
  exact (X7_objective_not_negative int_of_string float_of_string
           Examples.finds_nothing Examples.fs "scenario.txt"
           Examples.scenario scenario_parsed eq_refl eq_refl eq_refl
           scenario_nonnegative).
Defined.

Lemma scenario_trips_fit : trips_fit Examples.scenario.
Proof.
  split; [reflexivity|]. simpl.
  repeat constructor; unfold Qle; simpl; lia.
Qed.

(** The scenario with customer 0 served by facility 0 and customer 1 by
    facility 1: every demand is covered, every capacity respected, and
    the truck constraints hold. *)
Lemma scenario_own_within_bounds :
  Forall (within_bounds MoreExamples.each_its_own)
    (vars (solve Examples.finds_nothing
             (Examples.solver_for "scenario.txt")).1).
Proof.
  assert (H : vars (solve Examples.finds_nothing
                      (Examples.solver_for "scenario.txt")).1
              = map xvar (seq 0 4)) by (vm_compute; reflexivity).
  rewrite H. repeat constructor; by compute.
Qed.

Lemma scenario_own_served :
  demand_covered Examples.scenario MoreExamples.each_its_own
  ∧ capacity_respected Examples.scenario MoreExamples.each_its_own.
Proof.
  split.
  - intros [|[|c]] Hc; [by compute|by compute|].
    unfold nC in Hc. simpl in Hc. lia.
  - intros [|[|f]] Hf; [by compute|by compute|].
    unfold nF in Hf. simpl in Hf. lia.
Qed.

Lemma X8_witness :
  parsed_ Examples.fs "scenario.txt" Examples.scenario
  ∧ (nF Examples.scenario ≤ length (capacityF Examples.scenario))%nat
  ∧ trips_fit Examples.scenario
  ∧ Forall (within_bounds MoreExamples.each_its_own)
      (vars (solve Examples.finds_nothing
               (Examples.solver_for "scenario.txt")).1)
  ∧ (demand_covered Examples.scenario MoreExamples.each_its_own
     ∧ capacity_respected Examples.scenario MoreExamples.each_its_own)
  ∧ Forall (satisfies MoreExamples.each_its_own)
      (constraints (solve Examples.finds_nothing
                      (Examples.solver_for "scenario.txt")).1).
Proof.
  assert (Hcap : (nF Examples.scenario
                  ≤ length (capacityF Examples.scenario))%nat)
    by (vm_compute; lia).
  split_and!; [exact scenario_parsed|exact Hcap|exact scenario_trips_fit
              |exact scenario_own_within_bounds
              |exact (proj1 scenario_own_served)
              |exact (proj2 scenario_own_served)|].
  exact (proj2 (X8_truck_constraints_never_bind int_of_string
                  float_of_string Examples.finds_nothing Examples.fs
                  "scenario.txt" Examples.scenario MoreExamples.each_its_own
                  scenario_parsed Hcap scenario_trips_fit
                  scenario_own_within_bounds)
               scenario_own_served).
Defined.

Lemma X9_witness :
  Examples.fs "scenario.txt" = Readable Examples.scenario_text
  ∧ well_formed int_of_string float_of_string Examples.scenario_text 2 2
  ∧ parsed_ Examples.fs "scenario.txt" Examples.scenario
  ∧ nondegenerate Examples.scenario
  ∧ solve Examples.finds_zero (Examples.solver_for "scenario.txt")
    = (built Examples.scenario,
       ret (match Examples.finds_zero (built Examples.scenario) with
            | Some objective_value => PyFloat objective_value
            | None => PyInt (-1)
            end)).
Proof.
  split_and!; [reflexivity|exact scenario_well_formed|exact scenario_parsed
              |exact scenario_nondegenerate|].
  exact (X9_well_formed_file_solves int_of_string float_of_string
           Examples.finds_zero Examples.fs "scenario.txt"
           Examples.scenario_text 2 2 Examples.scenario eq_refl
           scenario_well_formed scenario_parsed scenario_nondegenerate).
Defined.

Lemma scenario_distances :
  reads float_of_string (tokens Examples.scenario_text 6) [1; 1; 1; 1]%Q.
Proof. by apply reads_of_map. Qed.

Lemma X10_witness :
  Examples.fs "scenario.txt" = Readable Examples.scenario_text
  ∧ well_formed int_of_string float_of_string Examples.scenario_text 2 2
  ∧ parsed_ Examples.fs "scenario.txt" Examples.scenario
  ∧ ¬ (truckDistLimit Examples.scenario == 0)%Q
  ∧ reads float_of_string (tokens Examples.scenario_text 6) [1; 1; 1; 1]%Q
  ∧ (1 < nF Examples.scenario)%nat
  ∧ ∃ ct,
      constraints (solve Examples.finds_nothing
                     (Examples.solver_for "scenario.txt")).1
        !! (nC Examples.scenario + nF Examples.scenario + 1)%nat = Some ct
      ∧ ct_sense ct = LE
      ∧ ∀ a, (eval a (ct_lhs ct)
              == big (nC Examples.scenario)
                   (λ c, x_val Examples.scenario a 1 c
                         * at_ [1; 1; 1; 1]%Q
                             (c * nF Examples.scenario + 1))
                 / truckDistLimit Examples.scenario)%Q.
Proof.
  assert (Hf : (1 < nF Examples.scenario)%nat) by (unfold nF; simpl; lia).
  split_and!; [reflexivity|exact scenario_well_formed|exact scenario_parsed
              |exact (proj1 scenario_nondegenerate)|exact scenario_distances
              |exact Hf|].
  exact (X10_distance_tokens_weight_x int_of_string float_of_string
           Examples.finds_nothing Examples.fs "scenario.txt"
           Examples.scenario_text 2 2 Examples.scenario [1; 1; 1; 1]%Q 1%nat
           eq_refl scenario_well_formed scenario_parsed
           (proj1 scenario_nondegenerate) scenario_distances Hf).
Defined.

Lemma finds_optimum_exact : Diet.exact_on Diet.finds_optimum Diet.diet.
Proof.
  eexists _, _. split_and!; [reflexivity|reflexivity| | |].
  - split; simpl; repeat constructor;
      unfold within_bounds, satisfies; simpl; try lra; by compute.
  - simpl. lra.
  - intros a Ha. pose proof (diet_cost_bound a _ eq_refl Ha) as H.
    simpl in *. lra.
Qed.

Lemma X12_witness :
  Diet.exact_on Diet.finds_optimum Diet.diet
  ∧ ∃ meat bread,
      Diet.dietProblem Diet.finds_optimum
      = ([Diet.Information Diet.diet; Diet.Information Diet.diet;
          Diet.FloatLine "Meat: " meat; Diet.FloatLine "Bread: " bread;
          Diet.IntLine "Objective Value: " 67],
         ret tt)
      ∧ (meat == 8 # 5)%Q ∧ (bread == 9 # 5)%Q.
Proof.
  split; [exact finds_optimum_exact|].
  exact (X12_diet_optimum Diet.finds_optimum finds_optimum_exact).
Defined.

Lemma surplus_values : numeric float_of_string ["9"; "9"].
Proof. by apply (numeric_of_map _ _ [9; 9]%Q). Qed.

Lemma X13_witness :
  Examples.fs "scenario.txt" = Readable Examples.scenario_text
  ∧ MoreExamples.fs "surplus.txt" = Readable MoreExamples.surplus_text
  ∧ (1 = 1 ∨ 1 = 6)%nat
  ∧ (∀ j, (j < 7)%nat → j ≠ 1%nat →
       tokens MoreExamples.surplus_text j = tokens Examples.scenario_text j)
  ∧ tokens MoreExamples.surplus_text 1
    = tokens Examples.scenario_text 1 ++ ["9"; "9"]
  ∧ parsed_ Examples.fs "scenario.txt" Examples.scenario
  ∧ (numeric float_of_string ["9"; "9"] →
     parse MoreExamples.fs "surplus.txt" = ([], Some Examples.scenario))
  ∧ (¬ numeric float_of_string ["9"; "9"] →
     (parse MoreExamples.fs "surplus.txt").2 = None).
Proof.
  assert (Hk : (1 = 1 ∨ 1 = 6)%nat) by (left; reflexivity).
  assert (Hsame : ∀ j, (j < 7)%nat → j ≠ 1%nat →
            tokens MoreExamples.surplus_text j
            = tokens Examples.scenario_text j).
  { intros j Hj Hne.
    do 7 (destruct j as [|j]; [(vm_compute; reflexivity) || lia|]). lia. }
  assert (Hmore : tokens MoreExamples.surplus_text 1
                  = tokens Examples.scenario_text 1 ++ ["9"; "9"])
    by (vm_compute; reflexivity).
  split_and!; [reflexivity|reflexivity|exact Hk|exact Hsame|exact Hmore
              |exact scenario_parsed|..];
    apply (X13_surplus_matrix_tokens 0%Q int_of_string float_of_string
             Examples.fs "scenario.txt" Examples.scenario_text
             MoreExamples.fs "surplus.txt" MoreExamples.surplus_text
             1%nat ["9"; "9"] Examples.scenario eq_refl eq_refl Hk Hsame
             Hmore scenario_parsed).
Defined.
End ExtrasOnExamples.
